(** * postgresstore: a session store on a relational table

    A shallow embedding of [postgresstore.go] and a verification of its
    expiry lifecycle: the statements sent to the database, the way their
    results are turned into Go return values, and the cleanup goroutine with
    its stop channel.

    Conventions.
    - A Go [[]byte] is an [option (list byte)]: [None] is the nil slice.
    - A Go [error] is an [option error]: [None] is nil.
    - [time.Time] and database timestamps are integers on one common scale,
      [time.Duration] is an integer count of nanoseconds.
    - [*sql.DB] is a handle on mutable state outside the program; the store
      record carries that state and every method returns the store it
      leaves behind. *)

From Stdlib Require Import ZArith String Ascii List Bool.
From Stdlib.Strings Require Import Byte.
From stdpp Require Import base option list strings gmap fin_maps.

Local Open Scope string_scope.
Local Open Scope Z_scope.

(** ** Values crossing the database/sql boundary *)

Definition bytes : Type := option (list byte).

Inductive error : Type :=
| ErrNoRows                  (* sql.ErrNoRows *)
| ErrDriver (msg : string).  (* any other error value *)

Definition error_eqb (a b : error) : bool :=
  match a, b with
  | ErrNoRows, ErrNoRows => true
  | ErrDriver x, ErrDriver y => String.eqb x y
  | _, _ => false
  end.

(** Bound parameters of a statement ([$1], [$2], ...). *)
Inductive arg : Type :=
| ArgString (s : string)
| ArgBytes (b : bytes)
| ArgTime (t : Z).

(** [*sql.Row]: what [row.Scan(&b)] will find. Either the query or the
    step to its first row has failed, [sql.ErrNoRows] when there is no row,
    and [b] is not written; or the column is copied into [b] and the rows
    are then closed, which may itself fail. *)
Definition Row : Type := (error + bytes * option error)%type.

(** [err = row.Scan(&b)]: what is left in [b], and the error. [b] keeps its
    zero value when no row is scanned; when one is, [b] holds the column
    even if closing the rows then returns an error. *)
Definition Scan (r : Row) : bytes * option error :=
  match r with
  | inl e => (None, Some e)
  | inr (b, closed) => (b, closed)
  end.

(** [*sql.Rows] of a two-column query: the rows [rows.Next] steps through,
    each with the outcome of [rows.Scan(&token, &data)], and the error
    [rows.Err] reports once [Next] has returned false. *)
Record Rows : Type := MkRows {
  rows_next : list (error + (string * bytes));
  rows_err : option error;
}.

(** The part of [*sql.DB] the store uses. *)
Class Driver (DB : Type) : Type := {
  QueryRow : DB -> string -> list arg -> DB * Row;
  Query : DB -> string -> list arg -> DB * (error + Rows);
  Exec : DB -> string -> list arg -> DB * option error;
}.

(** ** fmt.Sprintf, for the [%s] verb with string operands *)

Definition extra (a : list string) : string :=
  match a with
  | [] => ""
  | x :: a' =>
      "%!(EXTRA string=" ++ x ++
      fold_right (fun y acc => ", string=" ++ y ++ acc) ")" a'
  end.

Fixpoint Sprintf (format : string) (a : list string) : string :=
  match format with
  | EmptyString => extra a
  | String c rest =>
      match rest with
      | String d rest' =>
          if Ascii.eqb c "%" && Ascii.eqb d "s" then
            match a with
            | x :: a' => x ++ Sprintf rest' a'
            | [] => "%!s(MISSING)" ++ Sprintf rest' []
            end
          else String c (Sprintf rest a)
      | EmptyString => String c (extra a)
      end
  end.

(** ** Configuration *)

Record storeOptions : Type := MkOptions {
  sessionTableName : string;
  tokenColumnName : string;
  dataColumnName : string;
  expiryColumnName : string;
  cleanupInterval : Z;
}.

Definition Nanosecond : Z := 1.
Definition Second : Z := 1000000000 * Nanosecond.
Definition Minute : Z := 60 * Second.

Definition defaultOptions : storeOptions := {|
  sessionTableName := "sessions";
  tokenColumnName := "token";
  dataColumnName := "data";
  expiryColumnName := "expiry";
  cleanupInterval := 5 * Minute;
|}.

(** A [StoreOption] is a function that updates the options it is handed. *)
Definition StoreOption : Type := storeOptions -> storeOptions.

(** Modelled from the spec: [WithCleanupInterval] is declared outside
    [postgresstore.go]; it is the option that sets [cleanupInterval]. *)
Definition WithCleanupInterval (interval : Z) : StoreOption :=
  fun o => {|
    sessionTableName := sessionTableName o;
    tokenColumnName := tokenColumnName o;
    dataColumnName := dataColumnName o;
    expiryColumnName := expiryColumnName o;
    cleanupInterval := interval;
  |}.

(** ** The store *)

(** [make(chan bool)]: a channel without buffer. A send on it completes
    only together with a receive. *)
Inductive chan : Type := UnbufferedChan.

Record PostgresStore (DB : Type) : Type := MkStore {
  db : DB;
  stopCleanup : option chan;
  opts : storeOptions;
}.
Arguments MkStore {DB}.
Arguments db {DB}.
Arguments stopCleanup {DB}.
Arguments opts {DB}.

Definition with_db {DB} (p : PostgresStore DB) (d : DB) : PostgresStore DB :=
  MkStore d (stopCleanup p) (opts p).

Section Methods.
Context {DB : Type} `{Driver DB}.

Definition Find (p : PostgresStore DB) (token : string)
  : PostgresStore DB * (bytes * bool * option error) :=
  let '(d, row) :=
    QueryRow (db p)
      (Sprintf "SELECT %s FROM %s WHERE %s = $1 AND current_timestamp < %s"
         [dataColumnName (opts p); sessionTableName (opts p);
          tokenColumnName (opts p); expiryColumnName (opts p)])
      [ArgString token] in
  let '(b, err) := Scan row in
  match err with
  | Some e =>
      if error_eqb e ErrNoRows then (with_db p d, (None, false, None))
      else (with_db p d, (None, false, Some e))
  | None => (with_db p d, (b, true, None))
  end.

Definition Commit (p : PostgresStore DB) (token : string) (b : bytes)
  (expiry : Z) : PostgresStore DB * option error :=
  let '(d, err) :=
    Exec (db p)
      (Sprintf "INSERT INTO %s (%s, %s, %s) VALUES ($1, $2, $3) ON CONFLICT (%s) DO UPDATE SET %s = EXCLUDED.%s, %s = EXCLUDED.%s"
         [sessionTableName (opts p); tokenColumnName (opts p);
          dataColumnName (opts p); expiryColumnName (opts p);
          tokenColumnName (opts p); dataColumnName (opts p);
          dataColumnName (opts p); expiryColumnName (opts p);
          expiryColumnName (opts p)])
      [ArgString token; ArgBytes b; ArgTime expiry] in
  match err with
  | Some e => (with_db p d, Some e)
  | None => (with_db p d, None)
  end.

Definition Delete (p : PostgresStore DB) (token : string)
  : PostgresStore DB * option error :=
  let '(d, err) :=
    Exec (db p)
      (Sprintf "DELETE FROM %s WHERE %s = $1"
         [sessionTableName (opts p); tokenColumnName (opts p)])
      [ArgString token] in
  (with_db p d, err).

(** The [for rows.Next()] loop of [All]. *)
Fixpoint All_rows (rs : list (error + (string * bytes)))
  (sessions : gmap string bytes) : error + gmap string bytes :=
  match rs with
  | [] => inr sessions
  | inl err :: _ => inl err
  | inr (token, data) :: rs' => All_rows rs' (<[token := data]> sessions)
  end.

Definition All (p : PostgresStore DB)
  : PostgresStore DB * (option (gmap string bytes) * option error) :=
  let '(d, r) :=
    Query (db p)
      (Sprintf "SELECT %s, %s FROM %s WHERE current_timestamp < %s"
         [tokenColumnName (opts p); dataColumnName (opts p);
          sessionTableName (opts p); expiryColumnName (opts p)])
      [] in
  match r with
  | inl err => (with_db p d, (None, Some err))
  | inr rows =>
      match All_rows (rows_next rows) ∅ with
      | inl err => (with_db p d, (None, Some err))
      | inr sessions =>
          match rows_err rows with
          | Some err => (with_db p d, (None, Some err))
          | None => (with_db p d, (Some sessions, None))
          end
      end
  end.

Definition deleteExpired (p : PostgresStore DB)
  : PostgresStore DB * option error :=
  let '(d, err) :=
    Exec (db p)
      (Sprintf "DELETE FROM %s WHERE %s < current_timestamp"
         [sessionTableName (opts p); expiryColumnName (opts p)])
      [] in
  (with_db p d, err).
End Methods.

(** ** The storage engine

    The database is not part of the program. What follows is the reference
    model the store is verified against: one table with a text key, a
    [BYTEA NOT NULL] payload and a timestamp, a server clock, and the five
    statements of the wire contract written over the table's own names.
    Any other statement text is rejected, as is any statement while the
    connection is down. *)

Record pgdb : Type := MkPg {
  pg_table : string;
  pg_token : string;
  pg_data : string;
  pg_expiry : string;
  pg_rows : gmap string (list byte * Z);
  pg_now : Z;                 (* current_timestamp *)
  pg_fault : option string;   (* Some msg: every statement fails with msg *)
}.

Definition pg_with_rows (d : pgdb) (rows : gmap string (list byte * Z)) : pgdb :=
  MkPg (pg_table d) (pg_token d) (pg_data d) (pg_expiry d) rows (pg_now d)
    (pg_fault d).

(** The clock moves forward by [dt]. *)
Definition pg_elapse (dt : N) (d : pgdb) : pgdb :=
  MkPg (pg_table d) (pg_token d) (pg_data d) (pg_expiry d) (pg_rows d)
    (pg_now d + Z.of_N dt) (pg_fault d).

Definition pg_break (msg : string) (d : pgdb) : pgdb :=
  MkPg (pg_table d) (pg_token d) (pg_data d) (pg_expiry d) (pg_rows d)
    (pg_now d) (Some msg).

Definition sql_select_active (d : pgdb) : string :=
  "SELECT " ++ pg_data d ++ " FROM " ++ pg_table d ++ " WHERE " ++ pg_token d
  ++ " = $1 AND current_timestamp < " ++ pg_expiry d.

Definition sql_select_all_active (d : pgdb) : string :=
  "SELECT " ++ pg_token d ++ ", " ++ pg_data d ++ " FROM " ++ pg_table d
  ++ " WHERE current_timestamp < " ++ pg_expiry d.

Definition sql_upsert (d : pgdb) : string :=
  "INSERT INTO " ++ pg_table d ++ " (" ++ pg_token d ++ ", " ++ pg_data d
  ++ ", " ++ pg_expiry d ++ ") VALUES ($1, $2, $3) ON CONFLICT ("
  ++ pg_token d ++ ") DO UPDATE SET " ++ pg_data d ++ " = EXCLUDED."
  ++ pg_data d ++ ", " ++ pg_expiry d ++ " = EXCLUDED." ++ pg_expiry d.

Definition sql_delete_token (d : pgdb) : string :=
  "DELETE FROM " ++ pg_table d ++ " WHERE " ++ pg_token d ++ " = $1".

Definition sql_delete_expired (d : pgdb) : string :=
  "DELETE FROM " ++ pg_table d ++ " WHERE " ++ pg_expiry d
  ++ " < current_timestamp".

Definition pg_rejected : error := ErrDriver "pq: statement not understood".

(** A byte slice bound to a [BYTEA] parameter: the nil slice is sent as the
    empty byte string. *)
Definition bind_bytea (b : bytes) : list byte := default [] b.

(** [current_timestamp < expiry] *)
Definition pg_active (now : Z) (r : list byte * Z) : bool := now <? r.2.

Definition pg_select_active (d : pgdb) (token : string) : Row :=
  match pg_rows d !! token with
  | Some r =>
      if pg_active (pg_now d) r then inr (Some r.1, None) else inl ErrNoRows
  | None => inl ErrNoRows
  end.

(** The token and payload columns of a stored row, as [rows.Scan] hands
    them over. *)
Definition pg_scan_row (kr : string * (list byte * Z)) : string * bytes :=
  (kr.1, Some kr.2.1).

Definition pg_select_all_active (d : pgdb) : Rows :=
  MkRows
    (inr <$> (pg_scan_row <$>
       map_to_list (filter (fun kr => (pg_now d < kr.2.2)%Z) (pg_rows d))))
    None.

Definition pg_upsert (d : pgdb) (token : string) (b : bytes) (expiry : Z) : pgdb :=
  pg_with_rows d (<[token := (bind_bytea b, expiry)]> (pg_rows d)).

Definition pg_delete_token (d : pgdb) (token : string) : pgdb :=
  pg_with_rows d (delete token (pg_rows d)).

(** [expiry < current_timestamp] rows go, the others stay. *)
Definition pg_delete_expired (d : pgdb) : pgdb :=
  pg_with_rows d (filter (fun kr => (pg_now d <= kr.2.2)%Z) (pg_rows d)).

Definition pg_QueryRow (d : pgdb) (q : string) (a : list arg) : pgdb * Row :=
  match pg_fault d with
  | Some msg => (d, inl (ErrDriver msg))
  | None =>
      match a with
      | [ArgString token] =>
          if String.eqb q (sql_select_active d)
          then (d, pg_select_active d token)
          else (d, inl pg_rejected)
      | _ => (d, inl pg_rejected)
      end
  end.

Definition pg_Query (d : pgdb) (q : string) (a : list arg)
  : pgdb * (error + Rows) :=
  match pg_fault d with
  | Some msg => (d, inl (ErrDriver msg))
  | None =>
      match a with
      | [] =>
          if String.eqb q (sql_select_all_active d)
          then (d, inr (pg_select_all_active d))
          else (d, inl pg_rejected)
      | _ => (d, inl pg_rejected)
      end
  end.

Definition pg_Exec (d : pgdb) (q : string) (a : list arg)
  : pgdb * option error :=
  match pg_fault d with
  | Some msg => (d, Some (ErrDriver msg))
  | None =>
      match a with
      | [ArgString token; ArgBytes b; ArgTime expiry] =>
          if String.eqb q (sql_upsert d)
          then (pg_upsert d token b expiry, None)
          else (d, Some pg_rejected)
      | [ArgString token] =>
          if String.eqb q (sql_delete_token d)
          then (pg_delete_token d token, None)
          else (d, Some pg_rejected)
      | [] =>
          if String.eqb q (sql_delete_expired d)
          then (pg_delete_expired d, None)
          else (d, Some pg_rejected)
      | _ => (d, Some pg_rejected)
      end
  end.

#[export] Instance pg_driver : Driver pgdb := {|
  QueryRow := pg_QueryRow;
  Query := pg_Query;
  Exec := pg_Exec;
|}.

(** The store talks to a table that has the names it was configured with,
    over a connection that is up. *)
Record pg_serves (p : PostgresStore pgdb) : Prop := {
  serves_up : pg_fault (db p) = None;
  serves_table : pg_table (db p) = sessionTableName (opts p);
  serves_token : pg_token (db p) = tokenColumnName (opts p);
  serves_data : pg_data (db p) = dataColumnName (opts p);
  serves_expiry : pg_expiry (db p) = expiryColumnName (opts p);
}.

(** The rows the engine holds that a query at its clock can see, with the
    payload as a Go slice. *)
Definition pg_visible (d : pgdb) : gmap string bytes :=
  (fun r : list byte * Z => Some r.1)
    <$> filter (fun kr => (pg_now d < kr.2.2)%Z) (pg_rows d).

(** Sample values: an empty table under the default names with the clock
    at 1000, a store on it, and a payload given by its text. *)
Definition pg_empty : pgdb :=
  MkPg "sessions" "token" "data" "expiry" ∅ 1000 None.

Definition p_default : PostgresStore pgdb := MkStore pg_empty None defaultOptions.

Definition payload (s : string) : bytes := Some (list_byte_of_string s).

(** The same store, [dt] later on the server clock. *)
Definition later (dt : N) (p : PostgresStore pgdb) : PostgresStore pgdb :=
  with_db p (pg_elapse dt (db p)).

(** What clients do to a store over time: calls of its methods, sweeps
    of the cleanup loop, and the clock moving on. *)
Inductive action : Type :=
| DoCommit (token : string) (b : bytes) (expiry : Z)
| DoDelete (token : string)
| DoFind (token : string)
| DoAll
| DoSweep
| DoWait (dt : N).

Definition perform1 (p : PostgresStore pgdb) (a : action) : PostgresStore pgdb :=
  match a with
  | DoCommit token b expiry => (Commit p token b expiry).1
  | DoDelete token => (Delete p token).1
  | DoFind token => (Find p token).1
  | DoAll => (All p).1
  | DoSweep => (deleteExpired p).1
  | DoWait dt => later dt p
  end.

Definition perform (acts : list action) (p : PostgresStore pgdb)
  : PostgresStore pgdb :=
  foldl perform1 p acts.

Definition commits (token : string) (a : action) : bool :=
  match a with
  | DoCommit token' _ _ => String.eqb token token'
  | _ => false
  end.

(** ** A driver that keeps a record of what it is sent *)

Record sent : Type := MkSent {
  sent_text : string;
  sent_args : list arg;
}.

Definition traced (DB : Type) : Type := (DB * list sent)%type.

Definition statements {DB} (p : PostgresStore (traced DB)) : list sent :=
  (db p).2.

#[export] Instance traced_driver {DB} `{Driver DB} : Driver (traced DB) := {|
  QueryRow t q a :=
    let '(d, r) := QueryRow t.1 q a in ((d, (t.2 ++ [MkSent q a])%list), r);
  Query t q a :=
    let '(d, r) := Query t.1 q a in ((d, (t.2 ++ [MkSent q a])%list), r);
  Exec t q a :=
    let '(d, r) := Exec t.1 q a in ((d, (t.2 ++ [MkSent q a])%list), r);
|}.

(** ** Construction, the cleanup goroutine and its stop channel

    The goroutines that touch [p.stopCleanup] are the one [New] spawns and
    the callers of [StopCleanup]. Each is a small program counter; a world
    holds the store they share, and an event is one of them taking its next
    atomic step. *)

Record Ticker : Type := MkTicker {
  period : Z;
  running : bool;
}.

Inductive cleanup_pc : Type :=
| LoopNotStarted                 (* New spawned nothing *)
| LoopSpawned (interval : Z)     (* go p.startCleanup(interval), not yet run *)
| LoopSelect                     (* blocked in the select *)
| LoopReturned                   (* took the stop case and returned *)
| LoopPanicked.                  (* time.NewTicker refused the interval *)

Inductive stop_pc : Type :=
| StopEntered                    (* StopCleanup called, before the nil test *)
| StopSending                    (* blocked in p.stopCleanup <- true *)
| StopReturned (sent : bool).    (* returned, after a send or without one *)

#[export] Instance stop_pc_eq_dec : EqDecision stop_pc.
Proof. solve_decision. Defined.

Record World (DB : Type) : Type := MkWorld {
  store : PostgresStore DB;
  cleanup : cleanup_pc;
  ticker : option Ticker;
  stops : list stop_pc;
  logged : list error;           (* what log.Println was given *)
}.
Arguments MkWorld {DB}.
Arguments store {DB}.
Arguments cleanup {DB}.
Arguments ticker {DB}.
Arguments stops {DB}.
Arguments logged {DB}.

Inductive select_case : Type := CaseTicker | CaseStop.

Inductive event : Type :=
| EvLoopEnter          (* the spawned goroutine runs up to its select *)
| EvTick               (* ticker.C delivers; the select takes that case *)
| EvStopCall           (* some goroutine calls StopCleanup *)
| EvStopTest (k : nat) (* call k evaluates p.stopCleanup != nil *)
| EvHandoff (k : nat). (* the select receives what call k is sending *)

Section Lifecycle.
Context {DB : Type} `{Driver DB}.

Definition New (d : DB) (options : list StoreOption) : World DB :=
  let storeOpts := foldl (fun o (opt : StoreOption) => opt o) defaultOptions options in
  let p := MkStore d None storeOpts in
  if 0 <? cleanupInterval (opts p)
  then MkWorld p (LoopSpawned (cleanupInterval (opts p))) None [] []
  else MkWorld p LoopNotStarted None [] [].

Definition NewWithCleanupInterval (d : DB) (cleanupInterval : Z) : World DB :=
  New d [WithCleanupInterval cleanupInterval].

(** [time.NewTicker]: panics unless the period is positive. *)
Definition NewTicker (d : Z) : option Ticker :=
  if 0 <? d then Some (MkTicker d true) else None.

Definition Ticker_Stop (t : Ticker) : Ticker := MkTicker (period t) false.

(** [startCleanup] up to its loop: the channel, then the ticker. *)
Definition startCleanup (w : World DB) (interval : Z) : World DB :=
  let p := MkStore (db (store w)) (Some UnbufferedChan) (opts (store w)) in
  match NewTicker interval with
  | Some t => MkWorld p LoopSelect (Some t) (stops w) (logged w)
  | None => MkWorld p LoopPanicked (ticker w) (stops w) (logged w)
  end.

(** One pass through the [select] of [startCleanup]. *)
Definition startCleanup_select (w : World DB) (c : select_case) : World DB :=
  match c with
  | CaseTicker =>
      let '(p, err) := deleteExpired (store w) in
      match err with
      | Some e => MkWorld p LoopSelect (ticker w) (stops w) (logged w ++ [e])%list
      | None => MkWorld p LoopSelect (ticker w) (stops w) (logged w)
      end
  | CaseStop =>
      MkWorld (store w) LoopReturned (Ticker_Stop <$> ticker w) (stops w)
        (logged w)
  end.

(** [StopCleanup] up to its send: with a nil channel it returns, with a
    channel it starts sending. *)
Definition StopCleanup (p : PostgresStore DB) : stop_pc :=
  match stopCleanup p with
  | Some _ => StopSending
  | None => StopReturned false
  end.

Definition with_stops (w : World DB) (s : list stop_pc) : World DB :=
  MkWorld (store w) (cleanup w) (ticker w) s (logged w).

Definition step (w : World DB) (ev : event) : option (World DB) :=
  match ev with
  | EvLoopEnter =>
      match cleanup w with
      | LoopSpawned interval => Some (startCleanup w interval)
      | _ => None
      end
  | EvTick =>
      match cleanup w, ticker w with
      | LoopSelect, Some (MkTicker _ true) =>
          Some (startCleanup_select w CaseTicker)
      | _, _ => None
      end
  | EvStopCall => Some (with_stops w (stops w ++ [StopEntered])%list)
  | EvStopTest k =>
      match stops w !! k with
      | Some StopEntered =>
          Some (with_stops w (<[k := StopCleanup (store w)]> (stops w)))
      | _ => None
      end
  | EvHandoff k =>
      match cleanup w, stops w !! k with
      | LoopSelect, Some StopSending =>
          Some (startCleanup_select
                  (with_stops w (<[k := StopReturned true]> (stops w)))
                  CaseStop)
      | _, _ => None
      end
  end.

Fixpoint run (evs : list event) (w : World DB) : option (World DB) :=
  match evs with
  | [] => Some w
  | ev :: evs' =>
      match step w ev with
      | Some w' => run evs' w'
      | None => None
      end
  end.

(** How many [StopCleanup] calls completed their send. *)
Definition delivered (w : World DB) : nat :=
  length (filter (fun s => s = StopReturned true) (stops w)).

(** No call is blocked and none has sent. *)
Definition quiet (l : list stop_pc) : Prop :=
  Forall (fun s => s = StopEntered \/ s = StopReturned false) l.

(** What holds of every world that [New] can lead to. *)
Definition lifecycle_inv (w : World DB) : Prop :=
  match cleanup w with
  | LoopNotStarted => stopCleanup (store w) = None /\ quiet (stops w)
  | LoopSpawned interval =>
      0 < interval /\ stopCleanup (store w) = None /\ quiet (stops w)
  | LoopSelect =>
      stopCleanup (store w) = Some UnbufferedChan
      /\ (exists interval, ticker w = Some (MkTicker interval true))
      /\ delivered w = 0%nat
  | LoopReturned =>
      stopCleanup (store w) = Some UnbufferedChan
      /\ (exists interval, ticker w = Some (MkTicker interval false))
      /\ delivered w = 1%nat
  | LoopPanicked => False
  end.

End Lifecycle.

(** A world whose cleanup goroutine sits in its select while the
    connection to the database is down. *)
Definition w_down : World pgdb :=
  startCleanup (New (pg_break "connection refused" pg_empty) []) (5 * Minute).

(** A world in which one [StopCleanup] call is blocked in its send and the
    loop is in its select. *)
Definition w_stopping : World pgdb :=
  MkWorld (MkStore pg_empty (Some UnbufferedChan) defaultOptions) LoopSelect
    (Some (MkTicker (5 * Minute) true)) [StopSending] [].

(** A world in which the loop has received the stop of a first call and
    returned, and a second call is in its send. *)
Definition w_hung : World pgdb :=
  MkWorld (MkStore pg_empty (Some UnbufferedChan) defaultOptions) LoopReturned
    (Some (MkTicker (5 * Minute) false)) [StopReturned true; StopSending] [].

(** A driver that answers every call with what it was loaded with: the
    row of [QueryRow], the rows or the error of [Query], the error of
    [Exec]. *)
Record stub : Type := MkStub {
  stub_row : Row;
  stub_rows : error + Rows;
  stub_exec : option error;
}.

#[export] Instance stub_driver : Driver stub := {|
  QueryRow s _ _ := (s, stub_row s);
  Query s _ _ := (s, stub_rows s);
  Exec s _ _ := (s, stub_exec s);
|}.

(** A world whose loop is in its select over a table that holds one row
    past its expiry, one at it and one before it. *)
Definition pg_three : pgdb :=
  MkPg "sessions" "token" "data" "expiry"
    (<["old" := ([x6f], 999)]> (<["edge" := ([x65], 1000)]>
       (<["new" := ([x6e], 1001)]> ∅)))
    1000 None.

Definition w_three : World pgdb :=
  MkWorld (MkStore pg_three (Some UnbufferedChan) defaultOptions) LoopSelect
    (Some (MkTicker (5 * Minute) true)) [] [].

(** * Verification *)

(** ** The statements the store sends are the engine's statements *)

Lemma append_empty_r (s : string) : s ++ "" = s.
Proof.
  induction s as [|c s IH]; [reflexivity |].
  change (String c (s ++ "") = String c s). now rewrite IH.
Qed.

Ltac engine_names Hp :=
  let Ht := fresh in let Hk := fresh in let Hd := fresh in let He := fresh in
  destruct Hp as [_ Ht Hk Hd He];
  rewrite <- ?Ht, <- ?Hk, <- ?Hd, <- ?He.

Section Texts.
Variable p : PostgresStore pgdb.
Hypothesis Hp : pg_serves p.

Lemma Find_text :
  Sprintf "SELECT %s FROM %s WHERE %s = $1 AND current_timestamp < %s"
    [dataColumnName (opts p); sessionTableName (opts p);
     tokenColumnName (opts p); expiryColumnName (opts p)]
  = sql_select_active (db p).
Proof.
  engine_names Hp. unfold sql_select_active. simpl.
  now rewrite append_empty_r.
Qed.

Lemma All_text :
  Sprintf "SELECT %s, %s FROM %s WHERE current_timestamp < %s"
    [tokenColumnName (opts p); dataColumnName (opts p);
     sessionTableName (opts p); expiryColumnName (opts p)]
  = sql_select_all_active (db p).
Proof.
  engine_names Hp. unfold sql_select_all_active. simpl.
  now rewrite append_empty_r.
Qed.

Lemma Commit_text :
  Sprintf "INSERT INTO %s (%s, %s, %s) VALUES ($1, $2, $3) ON CONFLICT (%s) DO UPDATE SET %s = EXCLUDED.%s, %s = EXCLUDED.%s"
    [sessionTableName (opts p); tokenColumnName (opts p);
     dataColumnName (opts p); expiryColumnName (opts p);
     tokenColumnName (opts p); dataColumnName (opts p);
     dataColumnName (opts p); expiryColumnName (opts p);
     expiryColumnName (opts p)]
  = sql_upsert (db p).
Proof.
  engine_names Hp. unfold sql_upsert. simpl.
  now rewrite append_empty_r.
Qed.

Lemma Delete_text :
  Sprintf "DELETE FROM %s WHERE %s = $1"
    [sessionTableName (opts p); tokenColumnName (opts p)]
  = sql_delete_token (db p).
Proof. engine_names Hp. reflexivity. Qed.

Lemma deleteExpired_text :
  Sprintf "DELETE FROM %s WHERE %s < current_timestamp"
    [sessionTableName (opts p); expiryColumnName (opts p)]
  = sql_delete_expired (db p).
Proof. engine_names Hp. reflexivity. Qed.
End Texts.

(** ** The methods, run against the engine *)

Lemma with_db_same {DB} (p : PostgresStore DB) : with_db p (db p) = p.
Proof. now destruct p. Qed.

Lemma pg_serves_rows (p : PostgresStore pgdb) rows :
  pg_serves p -> pg_serves (with_db p (pg_with_rows (db p) rows)).
Proof. intros [? ? ? ? ?]. now split. Qed.

Lemma pg_visible_lookup (d : pgdb) (token : string) (b : bytes) :
  pg_visible d !! token = Some b <->
  exists data expiry,
    pg_rows d !! token = Some (data, expiry) /\ pg_now d < expiry /\ b = Some data.
Proof.
  unfold pg_visible. rewrite lookup_fmap, fmap_Some. split.
  - intros [[data expiry] [Hf ->]].
    apply map_lookup_filter_Some in Hf as [Hr Hlt]. eauto.
  - intros (data & expiry & Hr & Hlt & ->). exists (data, expiry).
    split; [| reflexivity]. now apply map_lookup_filter_Some.
Qed.

Lemma All_rows_scanned (l : list (string * bytes)) :
  forall acc : gmap string bytes,
    NoDup l.*1 ->
    exists m : gmap string bytes,
      All_rows (inr <$> l) acc = inr m /\
      forall k, m !! k = match (list_to_map l : gmap string bytes) !! k with
                         | Some v => Some v
                         | None => acc !! k
                         end.
Proof.
  induction l as [|[k0 v0] l IH]; intros acc Hnd.
  - exists acc. split; [reflexivity |]. intros k. simpl. now rewrite lookup_empty.
  - apply NoDup_cons in Hnd as [Hk0 Hnd].
    destruct (IH (<[k0 := v0]> acc) Hnd) as (m & Hm & Hlk).
    exists m. split; [exact Hm |]. intros k. rewrite Hlk. simpl.
    destruct (decide (k0 = k)) as [<- | Hne].
    + rewrite (not_elem_of_list_to_map_1 _ _ Hk0).
      now rewrite !lookup_insert_eq.
    + now rewrite !(lookup_insert_ne _ _ _ _ Hne).
Qed.

Lemma All_rows_engine (d : pgdb) :
  All_rows (rows_next (pg_select_all_active d)) ∅ = inr (pg_visible d).
Proof.
  unfold pg_select_all_active, pg_visible. simpl.
  set (M := filter _ (pg_rows d)).
  assert (Hnd : NoDup (pg_scan_row <$> map_to_list M).*1).
  { rewrite <- list_fmap_compose.
    rewrite (list_fmap_ext _ fst (map_to_list M)).
    - apply NoDup_fst_map_to_list.
    - now intros _ [k r] _. }
  destruct (All_rows_scanned _ ∅ Hnd) as (m & -> & Hlk). f_equal.
  apply map_eq. intros k. rewrite Hlk.
  rewrite (list_fmap_ext pg_scan_row
             (prod_map id (fun r : list byte * Z => Some r.1)) (map_to_list M))
    by now intros _ [k' [data e]] _.
  rewrite list_to_map_fmap, list_to_map_to_list, lookup_empty.
  now destruct (_ !! k).
Qed.

Section OnEngine.
Variable p : PostgresStore pgdb.
Hypothesis Hp : pg_serves p.

Lemma Find_engine (token : string) :
  Find p token =
  (p, match pg_select_active (db p) token with
      | inl _ => (None, false, None)
      | inr (b, _) => (b, true, None)
      end).
Proof.
  unfold Find. rewrite (Find_text p Hp). simpl. unfold pg_QueryRow.
  rewrite (serves_up p Hp), String.eqb_refl, with_db_same.
  unfold pg_select_active.
  destruct (pg_rows (db p) !! token) as [r|]; [| reflexivity].
  now destruct (pg_active (pg_now (db p)) r).
Qed.

Lemma Commit_engine (token : string) (b : bytes) (expiry : Z) :
  Commit p token b expiry =
  (with_db p (pg_upsert (db p) token b expiry), None).
Proof.
  unfold Commit. rewrite (Commit_text p Hp). simpl. unfold pg_Exec.
  now rewrite (serves_up p Hp), String.eqb_refl.
Qed.

Lemma Delete_engine (token : string) :
  Delete p token = (with_db p (pg_delete_token (db p) token), None).
Proof.
  unfold Delete. rewrite (Delete_text p Hp). simpl. unfold pg_Exec.
  now rewrite (serves_up p Hp), String.eqb_refl.
Qed.

Lemma deleteExpired_engine :
  deleteExpired p = (with_db p (pg_delete_expired (db p)), None).
Proof.
  unfold deleteExpired. rewrite (deleteExpired_text p Hp). simpl.
  unfold pg_Exec. now rewrite (serves_up p Hp), String.eqb_refl.
Qed.

Lemma All_engine : All p = (p, (Some (pg_visible (db p)), None)).
Proof.
  unfold All. rewrite (All_text p Hp). simpl. unfold pg_Query.
  rewrite (serves_up p Hp), String.eqb_refl, All_rows_engine.
  simpl. now rewrite with_db_same.
Qed.
End OnEngine.


(** ** Find: absence and failure *)

Lemma p_default_serves : pg_serves p_default.
Proof. now split. Qed.

Lemma error_eqb_ErrNoRows (e : error) :
  error_eqb e ErrNoRows = true <-> e = ErrNoRows.
Proof. destruct e; simpl; split; congruence. Qed.

Lemma Find_no_active_row (p : PostgresStore pgdb) (token : string) :
  pg_serves p ->
  (pg_rows (db p) !! token = None \/
   exists data expiry,
     pg_rows (db p) !! token = Some (data, expiry) /\ expiry <= pg_now (db p)) ->
  Find p token = (p, (None, false, None)).
Proof.
  intros Hp Hrow. rewrite (Find_engine p Hp). f_equal.
  unfold pg_select_active, pg_active.
  destruct Hrow as [-> | (data & expiry & -> & Hle)]; [reflexivity |].
  simpl. destruct (Z.ltb_spec (pg_now (db p)) expiry); [lia | reflexivity].
Qed.

Lemma perform1_serves (p : PostgresStore pgdb) (a : action) :
  pg_serves p -> pg_serves (perform1 p a).
Proof.
  intros Hp. destruct a as [token b expiry|token|token| | |dt]; simpl.
  - rewrite (Commit_engine p Hp). now apply pg_serves_rows.
  - rewrite (Delete_engine p Hp). now apply pg_serves_rows.
  - now rewrite (Find_engine p Hp).
  - now rewrite (All_engine p Hp).
  - rewrite (deleteExpired_engine p Hp). now apply pg_serves_rows.
  - destruct Hp. now split.
Qed.

Lemma perform1_never_committed (p : PostgresStore pgdb) (a : action) token :
  pg_serves p ->
  commits token a = false ->
  pg_rows (db p) !! token = None ->
  pg_rows (db (perform1 p a)) !! token = None.
Proof.
  intros Hp Ha Hrow.
  destruct a as [token' b expiry|token'|token'| | |dt]; simpl in *.
  - rewrite (Commit_engine p Hp). simpl.
    apply String.eqb_neq in Ha. rewrite lookup_insert_ne; auto.
  - rewrite (Delete_engine p Hp). simpl.
    rewrite lookup_delete. case_decide; auto.
  - now rewrite (Find_engine p Hp).
  - now rewrite (All_engine p Hp).
  - rewrite (deleteExpired_engine p Hp). simpl.
    apply map_lookup_filter_None. now left.
  - exact Hrow.
Qed.

Lemma perform_never_committed (acts : list action) :
  forall (p : PostgresStore pgdb) token,
    pg_serves p ->
    forallb (fun a => negb (commits token a)) acts = true ->
    pg_rows (db p) !! token = None ->
    pg_serves (perform acts p)
    /\ pg_rows (db (perform acts p)) !! token = None.
Proof.
  induction acts as [|a acts IH]; intros p token Hp Hacts Hrow; [auto |].
  simpl in Hacts. apply andb_true_iff in Hacts as [Ha Hacts].
  apply negb_true_iff in Ha. simpl. apply IH; [| exact Hacts |].
  - now apply perform1_serves.
  - now apply perform1_never_committed.
Qed.

(** C1. [Find] answers [(nil, false, nil)] when the table has no active row
    for the token: when the token has no row, as is the case whatever else
    happened to the store if the token was never committed, and when its
    row has expired. And whatever the driver, an error of the query other
    than [sql.ErrNoRows] comes back as the error of [Find], with [exists]
    false and a nil payload: an error met before the row is scanned, and
    equally an error of closing the rows after the payload was scanned. *)
Theorem Find_absent_or_failed :
  (forall (p : PostgresStore pgdb) (token : string),
      pg_serves p ->
      (pg_rows (db p) !! token = None \/
       exists data expiry,
         pg_rows (db p) !! token = Some (data, expiry) /\ expiry <= pg_now (db p)) ->
      Find p token = (p, (None, false, None)))
  /\
  (forall (p : PostgresStore pgdb) (acts : list action) (token : string),
      pg_serves p ->
      pg_rows (db p) = ∅ ->
      forallb (fun a => negb (commits token a)) acts = true ->
      Find (perform acts p) token = (perform acts p, (None, false, None)))
  /\
  (forall (DB : Type) (drv : Driver DB) (p : PostgresStore DB),
      exists q : string,
        forall (token : string) (d : DB) (e : error),
          QueryRow (db p) q [ArgString token] = (d, inl e) ->
          e <> ErrNoRows ->
          Find p token = (with_db p d, (None, false, Some e)))
  /\
  (forall (DB : Type) (drv : Driver DB) (p : PostgresStore DB),
      exists q : string,
        forall (token : string) (d : DB) (b : bytes) (e : error),
          QueryRow (db p) q [ArgString token] = (d, inr (b, Some e)) ->
          e <> ErrNoRows ->
          Find p token = (with_db p d, (None, false, Some e))).
Proof.
  split; [| split; [| split]].
  - intros p token. apply Find_no_active_row.
  - intros p acts token Hp Hempty Hacts.
    destruct (perform_never_committed acts p token Hp Hacts) as [Hp' Hrow].
    { rewrite Hempty. apply lookup_empty. }
    apply Find_no_active_row; auto.
  - intros DB drv p. eexists. intros token d e Hq He.
    unfold Find. rewrite Hq. simpl.
    destruct (error_eqb e ErrNoRows) eqn:Heq; [| reflexivity].
    now apply error_eqb_ErrNoRows in Heq.
  - intros DB drv p. eexists. intros token d b e Hq He.
    unfold Find. rewrite Hq. simpl.
    destruct (error_eqb e ErrNoRows) eqn:Heq; [| reflexivity].
    now apply error_eqb_ErrNoRows in Heq.
Qed.

Lemma Find_absent_or_failed_witness :
  Find p_default "abc" = (p_default, (None, false, None))
  /\ (Find (perform [DoCommit "x" (payload "data") 4600; DoWait 5; DoSweep;
                     DoDelete "abc"] p_default) "abc").2
     = (None, false, None)
  /\ Find (with_db p_default (pg_break "connection refused" pg_empty)) "abc"
     = (with_db p_default (pg_break "connection refused" pg_empty),
        (None, false, Some (ErrDriver "connection refused")))
  /\ (Find (MkStore
              (MkStub (inr (payload "payload2", Some (ErrDriver "bad connection")))
                 (inl ErrNoRows) None)
              None defaultOptions) "abc").2
     = (None, false, Some (ErrDriver "bad connection")).
Proof.
  split; [| split; [| split]].
  - apply (proj1 Find_absent_or_failed p_default "abc" p_default_serves).
    left. reflexivity.
  - exact (f_equal snd
             (proj1 (proj2 Find_absent_or_failed) p_default
                [DoCommit "x" (payload "data") 4600; DoWait 5; DoSweep;
                 DoDelete "abc"] "abc" p_default_serves eq_refl eq_refl)).
  - destruct (proj1 (proj2 (proj2 Find_absent_or_failed)) pgdb pg_driver
                (with_db p_default (pg_break "connection refused" pg_empty)))
      as [q Hq].
    apply (Hq "abc" (pg_break "connection refused" pg_empty)
             (ErrDriver "connection refused")).
    + reflexivity.
    + discriminate.
  - destruct (proj2 (proj2 (proj2 Find_absent_or_failed)) stub stub_driver
                (MkStore
                   (MkStub (inr (payload "payload2",
                                 Some (ErrDriver "bad connection")))
                      (inl ErrNoRows) None)
                   None defaultOptions)) as [q Hq].
    assert (Hne : ErrDriver "bad connection" <> ErrNoRows) by discriminate.
    exact (f_equal snd
             (Hq "abc" _ (payload "payload2") (ErrDriver "bad connection")
                eq_refl Hne)).
Defined.

(** ** Find: the payload it returns *)

(** C10. Whatever the driver answers, [Find] returns one of three shapes:
    [(nil, false, nil)], [(nil, false, err)] with [err] not nil, or
    [(b, true, nil)]. So the payload is nil whenever [exists] is false, and
    a payload that is not nil comes with [exists] true and a nil error.
    This holds also when the scan has written the payload into [b] and
    then returned an error: [Find] hands back nil, not what was written. *)
Theorem Find_payload_nil_unless_found :
  forall (DB : Type) (drv : Driver DB) (p : PostgresStore DB),
    (forall token : string,
        (Find p token).2 = (None, false, None)
        \/ (exists e, (Find p token).2 = (None, false, Some e))
        \/ (exists b, (Find p token).2 = (b, true, None)))
    /\ (exists q : string,
          forall (token : string) (d : DB) (b : bytes) (e : error),
            QueryRow (db p) q [ArgString token] = (d, inr (b, Some e)) ->
            exists err, Find p token = (with_db p d, (None, false, err))).
Proof.
  intros DB drv p. split.
  - intros token. unfold Find.
    destruct (QueryRow _ _ _) as [d [e | [b [e|]]]]; simpl.
    + destruct (error_eqb e ErrNoRows); eauto.
    + destruct (error_eqb e ErrNoRows); eauto.
    + eauto.
  - eexists. intros token d b e Hq. unfold Find. rewrite Hq. simpl.
    destruct (error_eqb e ErrNoRows); eauto.
Qed.

Lemma Find_payload_nil_unless_found_witness :
  QueryRow (MkStub (inr (payload "payload2", Some (ErrDriver "bad connection")))
              (inl ErrNoRows) None)
    "" [ArgString "abc"]
  = (MkStub (inr (payload "payload2", Some (ErrDriver "bad connection")))
       (inl ErrNoRows) None,
     inr (payload "payload2", Some (ErrDriver "bad connection")))
  /\ exists err,
      (Find (MkStore
               (MkStub (inr (payload "payload2",
                             Some (ErrDriver "bad connection")))
                  (inl ErrNoRows) None)
               None defaultOptions) "abc").2 = (None, false, err).
Proof.
  split; [reflexivity |].
  destruct (proj2 (Find_payload_nil_unless_found stub stub_driver
                     (MkStore
                        (MkStub (inr (payload "payload2",
                                      Some (ErrDriver "bad connection")))
                           (inl ErrNoRows) None)
                        None defaultOptions))) as [q Hq].
  destruct (Hq "abc" _ (payload "payload2") (ErrDriver "bad connection")
              eq_refl) as [err Herr].
  exists err. exact (f_equal snd Herr).
Defined.

(** ** The statements and their bound parameters *)

(** C9. For each of [Find], [Commit], [Delete] and [deleteExpired] there is
    a text that depends on the options alone, and a call sends the driver
    exactly one statement: that text, with the token, the payload and the
    expiry as its bound parameters. Two calls on one configuration therefore
    send the same text whatever their arguments. *)
Theorem query_text_fixed_by_configuration :
  exists find_q commit_q delete_q sweep_q : storeOptions -> string,
    forall (DB : Type) (drv : Driver DB) (p : PostgresStore (traced DB))
           (token : string) (b : bytes) (expiry : Z),
      statements (Find p token).1
      = (statements p ++ [MkSent (find_q (opts p)) [ArgString token]])%list
      /\ statements (Commit p token b expiry).1
         = (statements p ++
            [MkSent (commit_q (opts p))
               [ArgString token; ArgBytes b; ArgTime expiry]])%list
      /\ statements (Delete p token).1
         = (statements p ++ [MkSent (delete_q (opts p)) [ArgString token]])%list
      /\ statements (deleteExpired p).1
         = (statements p ++ [MkSent (sweep_q (opts p)) []])%list.
Proof.
  exists
    (fun o => Sprintf "SELECT %s FROM %s WHERE %s = $1 AND current_timestamp < %s"
                [dataColumnName o; sessionTableName o; tokenColumnName o;
                 expiryColumnName o]),
    (fun o => Sprintf "INSERT INTO %s (%s, %s, %s) VALUES ($1, $2, $3) ON CONFLICT (%s) DO UPDATE SET %s = EXCLUDED.%s, %s = EXCLUDED.%s"
                [sessionTableName o; tokenColumnName o; dataColumnName o;
                 expiryColumnName o; tokenColumnName o; dataColumnName o;
                 dataColumnName o; expiryColumnName o; expiryColumnName o]),
    (fun o => Sprintf "DELETE FROM %s WHERE %s = $1"
                [sessionTableName o; tokenColumnName o]),
    (fun o => Sprintf "DELETE FROM %s WHERE %s < current_timestamp"
                [sessionTableName o; expiryColumnName o]).
  intros DB drv p token b expiry. repeat split.
  - unfold Find. cbn [QueryRow traced_driver].
    destruct (QueryRow _ _ _) as [d [e | [b' [e|]]]]; simpl.
    + now destruct (error_eqb e ErrNoRows).
    + now destruct (error_eqb e ErrNoRows).
    + reflexivity.
  - unfold Commit. cbn [Exec traced_driver].
    now destruct (Exec _ _ _) as [d [e |]].
  - unfold Delete. cbn [Exec traced_driver].
    now destruct (Exec _ _ _) as [d err].
  - unfold deleteExpired. cbn [Exec traced_driver].
    now destruct (Exec _ _ _) as [d err].
Qed.

(** ** Reads see active rows only *)

Lemma later_serves (dt : N) (p : PostgresStore pgdb) :
  pg_serves p -> pg_serves (later dt p).
Proof. intros [? ? ? ? ?]. now split. Qed.

Lemma Commit_serves (p : PostgresStore pgdb) token b expiry :
  pg_serves p -> pg_serves (Commit p token b expiry).1.
Proof.
  intros Hp. rewrite (Commit_engine p Hp). now apply pg_serves_rows.
Qed.

Lemma Find_found_iff (p : PostgresStore pgdb) (token : string) (b : bytes) :
  pg_serves p ->
  ((Find p token).2 = (b, true, None) <->
   exists data expiry,
     pg_rows (db p) !! token = Some (data, expiry)
     /\ pg_now (db p) < expiry /\ b = Some data).
Proof.
  intros Hp. rewrite (Find_engine p Hp). simpl.
  unfold pg_select_active, pg_active.
  destruct (pg_rows (db p) !! token) as [[data expiry]|]; simpl.
  - destruct (Z.ltb_spec (pg_now (db p)) expiry); split.
    + intros [= <-]. eauto.
    + intros (data' & expiry' & [= <- <-] & _ & ->). reflexivity.
    + discriminate.
    + intros (data' & expiry' & [= <- <-] & Hlt & _). lia.
  - split; [discriminate |]. intros (? & ? & [=] & _).
Qed.

(** C2. A row is active exactly when the server clock is strictly before
    its expiry, and both reads decide that when they run: [Find] finds a
    payload iff the token's row is active, the mapping of [All] holds a
    token iff its row is active. A record committed with an expiry that is
    not after the clock is in the table (nothing has swept it) and is seen
    neither by [Find], which answers [(nil, false, nil)], nor by [All], at
    once and at any later time. *)
Theorem reads_filter_active_at_query_time
  (p : PostgresStore pgdb) (Hp : pg_serves p) :
  (forall token b,
      (Find p token).2 = (b, true, None) <->
      exists data expiry,
        pg_rows (db p) !! token = Some (data, expiry)
        /\ pg_now (db p) < expiry /\ b = Some data)
  /\ (exists m : gmap string bytes,
        (All p).2 = (Some m, None) /\
        forall token b,
          m !! token = Some b <->
          exists data expiry,
            pg_rows (db p) !! token = Some (data, expiry)
            /\ pg_now (db p) < expiry /\ b = Some data)
  /\ (forall token payload expiry (dt : N),
        expiry <= pg_now (db p) ->
        let p' := later dt (Commit p token payload expiry).1 in
        pg_rows (db p') !! token = Some (bind_bytea payload, expiry)
        /\ Find p' token = (p', (None, false, None))
        /\ exists m : gmap string bytes,
            All p' = (p', (Some m, None)) /\ m !! token = None).
Proof.
  split; [| split].
  - intros token b. now apply Find_found_iff.
  - exists (pg_visible (db p)). rewrite (All_engine p Hp). split; [reflexivity |].
    intros token b. apply pg_visible_lookup.
  - intros token payload expiry dt Hle p'.
    assert (Hp' : pg_serves p').
    { apply later_serves. now apply Commit_serves. }
    assert (Hrow : pg_rows (db p') !! token = Some (bind_bytea payload, expiry)).
    { unfold p'. rewrite (Commit_engine p Hp). simpl. apply lookup_insert_eq. }
    assert (Hnow : pg_now (db p) <= pg_now (db p')).
    { unfold p'. rewrite (Commit_engine p Hp). simpl. lia. }
    split; [exact Hrow |]. split.
    + apply (Find_no_active_row p' token Hp').
      right. exists (bind_bytea payload), expiry. split; [exact Hrow | lia].
    + exists (pg_visible (db p')). split; [apply (All_engine p' Hp') |].
      destruct (pg_visible (db p') !! token) as [b|] eqn:Hv; [| reflexivity].
      apply pg_visible_lookup in Hv as (data & e & Hr & Hlt & _).
      rewrite Hrow in Hr. injection Hr as <- <-. lia.
Qed.

Lemma reads_filter_active_at_query_time_witness :
  pg_serves p_default
  /\ 999 <= pg_now (db p_default)
  /\ Find (later 0 (Commit p_default "x" (payload "data") 999).1) "x"
     = (later 0 (Commit p_default "x" (payload "data") 999).1,
        (None, false, None)).
Proof.
  split; [exact p_default_serves |].
  assert (Hle : 999 <= pg_now (db p_default)) by (vm_compute; discriminate).
  split; [exact Hle |].
  exact (proj1 (proj2 (proj2 (proj2
           (reads_filter_active_at_query_time p_default p_default_serves))
           "x" (payload "data") 999 0%N Hle))).
Defined.

(** ** Commit *)

Lemma pg_Exec_upsert_retry d q token b expiry d' err :
  pg_Exec d q [ArgString token; ArgBytes b; ArgTime expiry] = (d', err) ->
  pg_Exec d' q [ArgString token; ArgBytes b; ArgTime expiry] = (d', err).
Proof.
  unfold pg_Exec. destruct (pg_fault d) as [msg|] eqn:Hf.
  - intros [= <- <-]. now rewrite Hf.
  - destruct (String.eqb q (sql_upsert d)) eqn:Hq; intros [= <- <-].
    + change (pg_fault (pg_upsert d token b expiry)) with (pg_fault d).
      change (sql_upsert (pg_upsert d token b expiry)) with (sql_upsert d).
      rewrite Hf, Hq. unfold pg_upsert, pg_with_rows. cbn.
      now rewrite insert_insert_eq.
    + now rewrite Hf, Hq.
Qed.

Lemma Commit_retry (p : PostgresStore pgdb) token b expiry :
  Commit (Commit p token b expiry).1 token b expiry
  = ((Commit p token b expiry).1, (Commit p token b expiry).2).
Proof.
  destruct p as [d sc o]. unfold Commit. cbn [Exec pg_driver opts db].
  match goal with |- context [pg_Exec d ?t ?a] => set (q := t) end.
  destruct (pg_Exec d q _) as [d' err] eqn:E.
  assert (E' := pg_Exec_upsert_retry _ _ _ _ _ _ _ E).
  destruct err as [e|]; cbn [fst snd with_db opts db stopCleanup];
    fold q; now rewrite E'.
Qed.

(** C3. [Commit] upserts. The first commit of a token succeeds and leaves
    the token's row holding the payload and the expiry it was given, whether
    or not the token had a row; a second commit of the same token replaces
    both, whatever the row held, so the table is the one the second commit
    alone would have produced and [Find] returns the second payload (if its
    expiry is still ahead of the clock, and nothing otherwise: never the
    first payload). Committing again with the same arguments changes
    nothing. *)
Theorem Commit_upserts
  (p : PostgresStore pgdb) (Hp : pg_serves p)
  (token : string) (b1 b2 : bytes) (e1 e2 : Z) :
  let p1 := (Commit p token b1 e1).1 in
  let p2 := (Commit p1 token b2 e2).1 in
  (Commit p token b1 e1).2 = None
  /\ pg_rows (db p1) = <[token := (bind_bytea b1, e1)]> (pg_rows (db p))
  /\ (Commit p1 token b2 e2).2 = None
  /\ pg_rows (db p2) = <[token := (bind_bytea b2, e2)]> (pg_rows (db p))
  /\ p2 = (Commit p token b2 e2).1
  /\ (Find p2 token).2
     = (if pg_now (db p) <? e2 then (Some (bind_bytea b2), true, None)
        else (None, false, None))
  /\ Commit p1 token b1 e1 = (p1, None).
Proof.
  intros p1 p2.
  assert (Hp1 : pg_serves p1) by now apply Commit_serves.
  assert (Hp2 : pg_serves p2) by now apply Commit_serves.
  assert (E1 : Commit p token b1 e1
               = (with_db p (pg_upsert (db p) token b1 e1), None))
    by apply (Commit_engine p Hp).
  assert (E2 : Commit p1 token b2 e2
               = (with_db p1 (pg_upsert (db p1) token b2 e2), None))
    by apply (Commit_engine p1 Hp1).
  assert (R1 : pg_rows (db p1) = <[token := (bind_bytea b1, e1)]> (pg_rows (db p))).
  { unfold p1. now rewrite E1. }
  assert (R2 : pg_rows (db p2) = <[token := (bind_bytea b2, e2)]> (pg_rows (db p))).
  { unfold p2. rewrite E2. simpl. rewrite R1. apply insert_insert_eq. }
  split; [now rewrite E1 |]. split; [exact R1 |].
  split; [now rewrite E2 |]. split; [exact R2 |]. split; [| split].
  - unfold p2. rewrite E2, (Commit_engine p Hp). unfold p1. rewrite E1.
    unfold with_db, pg_upsert, pg_with_rows. simpl.
    now rewrite insert_insert_eq.
  - rewrite (Find_engine p2 Hp2). simpl. unfold pg_select_active, pg_active.
    rewrite R2, lookup_insert_eq. simpl.
    assert (Hn : pg_now (db p2) = pg_now (db p)).
    { unfold p2. rewrite E2. unfold p1. now rewrite E1. }
    rewrite Hn. now destruct (pg_now (db p) <? e2).
  - pose proof (Commit_retry p token b1 e1) as Hr. fold p1 in Hr.
    rewrite Hr. now rewrite E1.
Qed.

Lemma Commit_upserts_witness :
  pg_serves p_default
  /\ (Find (Commit (Commit p_default "abc" (payload "payload1") 4600).1
              "abc" (payload "payload2") 4600).1 "abc").2
     = (payload "payload2", true, None).
Proof.
  split; [exact p_default_serves |].
  exact (proj1 (proj2 (proj2 (proj2 (proj2 (proj2
           (Commit_upserts p_default p_default_serves "abc"
              (payload "payload1") (payload "payload2") 4600 4600))))))).
Defined.

(** ** All *)

Lemma pg_visible_swept (d : pgdb) :
  pg_visible (pg_delete_expired d) = pg_visible d.
Proof.
  apply map_eq. intros token. apply option_eq. intros b.
  rewrite !pg_visible_lookup. simpl.
  split; intros (data & expiry & Hr & Hlt & ->); exists data, expiry.
  - apply map_lookup_filter_Some in Hr as [Hr _]. auto.
  - split; [| auto]. apply map_lookup_filter_Some. simpl. split; [exact Hr | lia].
Qed.

(** C4. [All] returns a mapping and no error. The mapping holds a token,
    with its payload, exactly when the token's row has its expiry after the
    clock: rows that have expired are left out although still in the table,
    and sweeping them first changes nothing in what [All] returns. With no
    active row the mapping is empty. *)
Theorem All_returns_active_rows
  (p : PostgresStore pgdb) (Hp : pg_serves p) :
  exists m : gmap string bytes,
    All p = (p, (Some m, None))
    /\ (forall token b,
          m !! token = Some b <->
          exists data expiry,
            pg_rows (db p) !! token = Some (data, expiry)
            /\ pg_now (db p) < expiry /\ b = Some data)
    /\ (All (deleteExpired p).1).2 = (Some m, None)
    /\ ((forall token data expiry,
            pg_rows (db p) !! token = Some (data, expiry) ->
            expiry <= pg_now (db p)) ->
        m = ∅).
Proof.
  exists (pg_visible (db p)). split; [apply (All_engine p Hp) |].
  split; [intros token b; apply pg_visible_lookup |]. split.
  - rewrite (deleteExpired_engine p Hp). simpl.
    rewrite All_engine by now apply pg_serves_rows.
    simpl. now rewrite pg_visible_swept.
  - intros Hall. apply map_eq. intros token. rewrite lookup_empty.
    destruct (pg_visible (db p) !! token) as [b|] eqn:Hv; [| reflexivity].
    apply pg_visible_lookup in Hv as (data & expiry & Hr & Hlt & _).
    specialize (Hall _ _ _ Hr). lia.
Qed.

Lemma All_returns_active_rows_witness :
  pg_serves (Commit p_default "x" (payload "data") 999).1
  /\ exists m : gmap string bytes,
      All (Commit p_default "x" (payload "data") 999).1
      = ((Commit p_default "x" (payload "data") 999).1, (Some m, None))
      /\ m = ∅.
Proof.
  assert (Hp : pg_serves (Commit p_default "x" (payload "data") 999).1)
    by (now split).
  split; [exact Hp |].
  destruct (All_returns_active_rows _ Hp) as (m & HAll & _ & _ & Hempty).
  exists m. split; [exact HAll |]. apply Hempty.
  intros token data expiry.
  rewrite (Commit_engine p_default p_default_serves).
  change ((<["x" := ([x64; x61; x74; x61], 999)]> ∅
             : gmap string (list byte * Z)) !! token = Some (data, expiry)
          -> expiry <= 1000).
  intros Hr. destruct (decide (token = "x")) as [-> | Hne].
  - rewrite lookup_insert_eq in Hr. injection Hr as _ <-. lia.
  - rewrite lookup_insert_ne, lookup_empty in Hr by congruence. discriminate.
Defined.

(** ** Delete *)

(** C5. [Delete] succeeds and leaves the table without the token's row,
    whether or not there was one (without one, the store is left as it
    was); a [Find] of the token right after answers [(nil, false, nil)]. *)
Theorem Delete_removes_row
  (p : PostgresStore pgdb) (Hp : pg_serves p) (token : string) :
  let p' := (Delete p token).1 in
  (Delete p token).2 = None
  /\ pg_rows (db p') = delete token (pg_rows (db p))
  /\ (pg_rows (db p) !! token = None -> p' = p)
  /\ Find p' token = (p', (None, false, None)).
Proof.
  intros p'. unfold p'. rewrite (Delete_engine p Hp). simpl.
  split; [reflexivity |]. split; [reflexivity |]. split.
  - intros Hnone. unfold pg_delete_token, pg_with_rows.
    rewrite (delete_id _ _ Hnone). destruct p as [[] ? ?]. reflexivity.
  - apply Find_no_active_row; [now apply pg_serves_rows |].
    left. simpl. apply lookup_delete_eq.
Qed.

Lemma Delete_removes_row_witness :
  pg_serves p_default
  /\ (Delete p_default "never-committed").2 = None
  /\ (Find (Delete (Commit p_default "abc" (payload "payload1") 4600).1 "abc").1
        "abc").2 = (None, false, None).
Proof.
  split; [exact p_default_serves |]. split.
  - exact (proj1 (Delete_removes_row p_default p_default_serves "never-committed")).
  - assert (Hp : pg_serves (Commit p_default "abc" (payload "payload1") 4600).1)
      by (now split).
    exact (f_equal snd (proj2 (proj2 (proj2 (Delete_removes_row _ Hp "abc"))))).
Defined.

(** ** Construction *)

Section LifecycleFacts.
Context {DB : Type} `{Driver DB}.

Lemma New_cleanup (d : DB) (options : list StoreOption) :
  cleanup (New d options)
  = if 0 <? cleanupInterval (opts (store (New d options)))
    then LoopSpawned (cleanupInterval (opts (store (New d options))))
    else LoopNotStarted.
Proof.
  unfold New. cbn [opts]. set (o := foldl _ _ _).
  destruct (0 <? cleanupInterval o) eqn:E; cbn [cleanup store opts];
    now rewrite E.
Qed.

Lemma not_started_stays (evs : list event) :
  forall w w' : World DB,
    cleanup w = LoopNotStarted -> run evs w = Some w' ->
    cleanup w' = LoopNotStarted /\ store w' = store w /\ logged w' = logged w.
Proof.
  induction evs as [|ev evs IH]; intros w w' Hc Hrun; simpl in Hrun.
  - injection Hrun as <-. auto.
  - destruct (step w ev) as [w1|] eqn:Hstep; [| discriminate].
    assert (cleanup w1 = LoopNotStarted /\ store w1 = store w
            /\ logged w1 = logged w) as (Hc1 & Hs1 & Hl1).
    { destruct ev; simpl in Hstep; rewrite ?Hc in Hstep; try discriminate.
      - injection Hstep as <-. auto.
      - destruct (stops w !! k) as [[| |]|]; try discriminate.
        injection Hstep as <-. auto. }
    destruct (IH w1 w' Hc1 Hrun) as (? & ? & ?). repeat split; congruence.
Qed.

Lemma New_opts (d : DB) (options : list StoreOption) :
  opts (store (New d options))
  = foldl (fun o (opt : StoreOption) => opt o) defaultOptions options.
Proof. unfold New. cbn [opts]. now destruct (0 <? _). Qed.

(** C8. The interval [New] goes by is the configured one: that of the
    defaults with the options applied to them in order. [New] spawns the
    cleanup goroutine, to run with that interval, exactly when it is
    greater than zero, and spawns nothing otherwise. So
    [NewWithCleanupInterval] spawns a goroutine with the interval it is
    given when that is positive and none when it is zero or negative, and
    then there is no goroutine later either. Without options the interval
    is the default, five minutes, and the goroutine is spawned. *)
Theorem New_spawns_cleanup_iff_interval_positive
  (d : DB) (options : list StoreOption) :
  let configured :=
    foldl (fun o (opt : StoreOption) => opt o) defaultOptions options in
  opts (store (New d options)) = configured
  /\ (cleanup (New d options) = LoopSpawned (cleanupInterval configured)
      <-> 0 < cleanupInterval configured)
  /\ (cleanup (New d options) = LoopNotStarted
      <-> cleanupInterval configured <= 0)
  /\ stopCleanup (store (New d options)) = None
  /\ (forall interval : Z,
        cleanupInterval (opts (store (NewWithCleanupInterval d interval)))
        = interval
        /\ cleanup (NewWithCleanupInterval d interval)
           = if 0 <? interval then LoopSpawned interval else LoopNotStarted)
  /\ (forall (interval : Z) evs w',
        interval <= 0 ->
        run evs (NewWithCleanupInterval d interval) = Some w' ->
        cleanup w' = LoopNotStarted)
  /\ cleanup (NewWithCleanupInterval d 0) = LoopNotStarted
  /\ cleanupInterval defaultOptions = 5 * 60 * 1000000000
  /\ cleanup (New d []) = LoopSpawned (5 * 60 * 1000000000).
Proof.
  intros configured.
  assert (Hopts : opts (store (New d options)) = configured)
    by apply New_opts.
  assert (Hci : forall interval : Z,
             cleanup (NewWithCleanupInterval d interval)
             = if 0 <? interval then LoopSpawned interval else LoopNotStarted).
  { intros interval. unfold NewWithCleanupInterval, New. simpl.
    now destruct (0 <? interval). }
  assert (Hint : forall interval : Z,
             cleanupInterval (opts (store (NewWithCleanupInterval d interval)))
             = interval).
  { intros interval. unfold NewWithCleanupInterval. now rewrite New_opts. }
  split; [exact Hopts |].
  rewrite New_cleanup, Hopts.
  destruct (Z.ltb_spec 0 (cleanupInterval configured)).
  - split; [split; [auto | reflexivity] |].
    split; [split; [discriminate | lia] |].
    split; [unfold New; cbn [opts]; now destruct (0 <? _) |].
    split; [intros interval; split; [apply Hint | apply Hci] |].
    split; [| repeat split].
    intros interval evs w' Hle Hrun.
    apply (not_started_stays evs (NewWithCleanupInterval d interval) w');
      [| exact Hrun].
    rewrite Hci. now destruct (Z.ltb_spec 0 interval); [lia |].
  - split; [split; [discriminate | lia] |].
    split; [split; [auto | reflexivity] |].
    split; [unfold New; cbn [opts]; now destruct (0 <? _) |].
    split; [intros interval; split; [apply Hint | apply Hci] |].
    split; [| repeat split].
    intros interval evs w' Hle Hrun.
    apply (not_started_stays evs (NewWithCleanupInterval d interval) w');
      [| exact Hrun].
    rewrite Hci. now destruct (Z.ltb_spec 0 interval); [lia |].
Qed.

(** ** The cleanup loop *)

(** C7. When the bulk delete of a tick fails, the error goes to the log and
    nowhere else: no [StopCleanup] call changes state, the loop is back in
    its select with the ticker still running, and the next tick is taken and
    runs the bulk delete again. *)
Theorem cleanup_error_logged_loop_continues
  (w : World DB) (interval : Z) (p' : PostgresStore DB) (e : error)
  (Hloop : cleanup w = LoopSelect)
  (Hticker : ticker w = Some (MkTicker interval true))
  (Hfail : deleteExpired (store w) = (p', Some e)) :
  exists w',
    step w EvTick = Some w'
    /\ logged w' = (logged w ++ [e])%list
    /\ stops w' = stops w
    /\ store w' = p'
    /\ cleanup w' = LoopSelect
    /\ ticker w' = Some (MkTicker interval true)
    /\ exists w'',
        step w' EvTick = Some w''
        /\ store w'' = (deleteExpired p').1
        /\ cleanup w'' = LoopSelect.
Proof.
  exists (startCleanup_select w CaseTicker).
  assert (Hw' : startCleanup_select w CaseTicker
                = MkWorld p' LoopSelect (ticker w) (stops w) (logged w ++ [e])%list).
  { unfold startCleanup_select. now rewrite Hfail. }
  split; [simpl; now rewrite Hloop, Hticker |].
  rewrite Hw'. cbn [logged stops store cleanup ticker].
  repeat (split; [reflexivity || exact Hticker |]).
  exists (startCleanup_select
            (MkWorld p' LoopSelect (ticker w) (stops w) (logged w ++ [e])%list)
            CaseTicker).
  split; [simpl; now rewrite Hticker |].
  unfold startCleanup_select. cbn [store ticker stops logged].
  destruct (deleteExpired p') as [p'' [e'|]]; now split.
Qed.
End LifecycleFacts.

Lemma cleanup_error_logged_loop_continues_witness :
  exists w',
    step w_down EvTick = Some w'
    /\ logged w' = [ErrDriver "connection refused"]
    /\ cleanup w' = LoopSelect.
Proof.
  assert (Hloop0 : cleanup w_down = LoopSelect) by reflexivity.
  assert (Hticker : ticker w_down = Some (MkTicker (5 * Minute) true))
    by reflexivity.
  assert (Hfail : deleteExpired (store w_down)
                  = (store w_down, Some (ErrDriver "connection refused")))
    by reflexivity.
  destruct (cleanup_error_logged_loop_continues w_down (5 * Minute)
              (store w_down) (ErrDriver "connection refused")
              Hloop0 Hticker Hfail)
    as (w' & Hstep & Hlog & _ & _ & Hloop & _).
  exists w'. split; [exact Hstep |]. split; [exact Hlog | exact Hloop].
Defined.

(** ** The stop channel *)

Section StopChannel.
Context {DB : Type} `{Driver DB}.

Lemma deleteExpired_keeps_channel (p : PostgresStore DB) :
  stopCleanup (deleteExpired p).1 = stopCleanup p.
Proof. unfold deleteExpired. now destruct (Exec _ _ _). Qed.

Lemma delivered_call (l : list stop_pc) :
  length (filter (fun s => s = StopReturned true) (l ++ [StopEntered])%list)
  = length (filter (fun s => s = StopReturned true) l).
Proof.
  rewrite filter_app, length_app.
  change (filter _ [StopEntered]) with (@nil stop_pc). simpl. lia.
Qed.

Lemma delivered_insert (l : list stop_pc) :
  forall (k : nat) (x y : stop_pc),
    l !! k = Some x ->
    (length (filter (fun s => s = StopReturned true) (<[k := y]> l))
     + (if decide (x = StopReturned true) then 1 else 0)
     = length (filter (fun s => s = StopReturned true) l)
       + (if decide (y = StopReturned true) then 1 else 0))%nat.
Proof.
  induction l as [|a l IH]; intros k x y Hk; [discriminate |].
  destruct k as [|k]; simpl in Hk.
  - injection Hk as ->. simpl. rewrite !filter_cons.
    destruct (decide (x = _)), (decide (y = _)); simpl; lia.
  - simpl. rewrite !filter_cons. specialize (IH k x y Hk).
    destruct (decide (a = _)); simpl; lia.
Qed.

Lemma quiet_delivered (l : list stop_pc) :
  quiet l -> length (filter (fun s => s = StopReturned true) l) = 0%nat.
Proof.
  induction 1 as [|s l Hs _ IH]; [reflexivity |].
  rewrite filter_cons. destruct (decide (s = _)) as [-> |]; [| exact IH].
  destruct Hs; discriminate.
Qed.

Lemma New_inv (d : DB) (options : list StoreOption) :
  lifecycle_inv (New d options).
Proof.
  unfold New. cbn [opts]. set (o := foldl _ _ _).
  destruct (Z.ltb_spec 0 (cleanupInterval o)); unfold lifecycle_inv; simpl;
    repeat split; auto; constructor.
Qed.

Lemma step_inv (w w' : World DB) (ev : event) :
  lifecycle_inv w -> step w ev = Some w' -> lifecycle_inv w'.
Proof.
  unfold lifecycle_inv. intros Hinv Hstep. destruct ev; simpl in Hstep.
  - (* the goroutine reaches its select *)
    destruct (cleanup w) as [|interval| | |]; try discriminate.
    destruct Hinv as (Hpos & _ & Hq). injection Hstep as <-.
    unfold startCleanup, NewTicker.
    destruct (Z.ltb_spec 0 interval); [| lia]. simpl.
    split; [reflexivity |]. split; [eauto |]. now apply quiet_delivered.
  - (* a tick *)
    destruct (cleanup w); try discriminate.
    destruct (ticker w) as [[i [|]]|] eqn:Ht; try discriminate.
    destruct Hinv as (Hc & _ & Hd). injection Hstep as <-.
    unfold startCleanup_select.
    pose proof (deleteExpired_keeps_channel (store w)) as Hk.
    destruct (deleteExpired (store w)) as [p [e|]]; simpl in *;
      (split; [congruence |]; split; [eauto | exact Hd]).
  - (* a new call *)
    injection Hstep as <-. unfold delivered in *. simpl.
    rewrite delivered_call.
    assert (Hq : forall l, quiet l -> quiet (l ++ [StopEntered])%list).
    { intros l Hl. apply Forall_app. split; [exact Hl |].
      constructor; [now left | constructor]. }
    destruct (cleanup w); intuition auto.
  - (* the nil test of a call *)
    destruct (stops w !! k) as [[| |]|] eqn:Hk; try discriminate.
    injection Hstep as <-. unfold delivered in *. simpl.
    pose proof (delivered_insert (stops w) k StopEntered
                  (StopCleanup (store w)) Hk) as Hd.
    unfold StopCleanup in *.
    destruct (cleanup w); destruct (stopCleanup (store w)) eqn:Hc;
      simpl in Hd; try (intuition (discriminate || lia)).
    + destruct Hinv as [_ Hq]. split; [reflexivity |].
      apply Forall_insert; [exact Hq | now right].
    + destruct Hinv as (Hpos & _ & Hq). split; [exact Hpos |].
      split; [reflexivity |]. apply Forall_insert; [exact Hq | now right].
  - (* the handoff *)
    destruct (cleanup w); try discriminate.
    destruct (stops w !! k) as [[| |]|] eqn:Hk; try discriminate.
    destruct Hinv as (Hc & [i Ht] & Hd). injection Hstep as <-.
    unfold delivered in *. simpl.
    pose proof (delivered_insert (stops w) k StopSending
                  (StopReturned true) Hk) as Hd'.
    simpl in Hd'. rewrite Ht. simpl.
    split; [exact Hc |]. split; [eauto |]. lia.
Qed.

Lemma run_inv (evs : list event) :
  forall w w' : World DB,
    lifecycle_inv w -> run evs w = Some w' -> lifecycle_inv w'.
Proof.
  induction evs as [|ev evs IH]; intros w w' Hinv Hrun; simpl in Hrun.
  - now injection Hrun as <-.
  - destruct (step w ev) as [w1|] eqn:Hstep; [| discriminate].
    eapply IH; [eapply step_inv |]; eauto.
Qed.

(** Once the loop has returned, a call blocked in its send stays there:
    nothing receives from the channel any more. *)
Lemma blocked_after_return (evs : list event) :
  forall (w w' : World DB) (k : nat),
    cleanup w = LoopReturned ->
    stops w !! k = Some StopSending ->
    run evs w = Some w' ->
    cleanup w' = LoopReturned /\ stops w' !! k = Some StopSending.
Proof.
  induction evs as [|ev evs IH]; intros w w' k Hc Hk Hrun; simpl in Hrun.
  - injection Hrun as <-. auto.
  - destruct (step w ev) as [w1|] eqn:Hstep; [| discriminate].
    apply (IH w1 w' k); [| | exact Hrun];
      destruct ev as [| | |j|j]; simpl in Hstep; rewrite ?Hc in Hstep;
      try discriminate.
    + now injection Hstep as <-.
    + destruct (stops w !! j) as [[| |]|]; try discriminate.
      now injection Hstep as <-.
    + injection Hstep as <-. simpl. now apply lookup_app_l_Some.
    + destruct (stops w !! j) as [[| |]|] eqn:Hj; try discriminate.
      injection Hstep as <-. simpl.
      rewrite list_lookup_insert_ne; [exact Hk | congruence].
Qed.
End StopChannel.

Section StopCleanupDelivery.
Context {DB : Type} `{Driver DB}.

(** C6, as the code has it. In every world [New] can lead to:
    nothing has panicked; if [New] spawned no loop, the store is as [New]
    left it and a [StopCleanup] call returns at its nil test, changing
    nothing; the loop has received one stop if it has returned and none
    otherwise; a call blocked in its send while the loop is in its select
    can be received, and then the call has returned, the ticker is stopped
    and the loop is over; a call blocked in its send once the loop has
    returned stays blocked whatever happens next. *)
Theorem StopCleanup_delivers_once
  (d : DB) (options : list StoreOption) (evs : list event) (w : World DB)
  (Hrun : run evs (New d options) = Some w) :
  cleanup w <> LoopPanicked
  /\ (cleanup (New d options) = LoopNotStarted ->
      store w = store (New d options)
      /\ forall k,
          stops w !! k <> Some StopSending
          /\ (stops w !! k = Some StopEntered ->
              exists w',
                step w (EvStopTest k) = Some w'
                /\ stops w' !! k = Some (StopReturned false)
                /\ store w' = store w
                /\ cleanup w' = LoopNotStarted
                /\ logged w' = logged w))
  /\ delivered w = (match cleanup w with LoopReturned => 1 | _ => 0 end)%nat
  /\ (forall k,
        stops w !! k = Some StopSending ->
        cleanup w = LoopSelect ->
        exists w',
          step w (EvHandoff k) = Some w'
          /\ stops w' !! k = Some (StopReturned true)
          /\ cleanup w' = LoopReturned
          /\ exists interval, ticker w' = Some (MkTicker interval false))
  /\ (forall k evs' w',
        stops w !! k = Some StopSending ->
        cleanup w = LoopReturned ->
        run evs' w = Some w' ->
        stops w' !! k = Some StopSending).
Proof.
  pose proof (run_inv evs _ w (New_inv d options) Hrun) as Hinv.
  unfold lifecycle_inv in Hinv.
  split; [| split; [| split; [| split]]].
  - intros Hc. now rewrite Hc in Hinv.
  - intros Hnone.
    destruct (not_started_stays evs _ w Hnone Hrun) as (Hc & Hs & Hl).
    split; [exact Hs |]. rewrite Hc in Hinv. destruct Hinv as [Hchan Hq].
    intros k. split.
    + intros Hk. apply (proj1 (Forall_lookup _ _) Hq) in Hk.
      destruct Hk; discriminate.
    + intros Hk. eexists. simpl. rewrite Hk. split; [reflexivity |].
      simpl. unfold StopCleanup. rewrite Hchan.
      rewrite list_lookup_insert_eq by (now apply lookup_lt_Some in Hk).
      auto.
  - destruct (cleanup w); try tauto.
    + now apply quiet_delivered.
    + now apply quiet_delivered.
  - intros k Hk Hc. rewrite Hc in Hinv. destruct Hinv as (_ & [i Ht] & _).
    eexists. simpl. rewrite Hc, Hk. split; [reflexivity |]. simpl.
    rewrite list_lookup_insert_eq by (now apply lookup_lt_Some in Hk).
    rewrite Ht. simpl. eauto.
  - intros k evs' w' Hk Hc Hrun'.
    now destruct (blocked_after_return evs' w w' k Hc Hk Hrun').
Qed.
End StopCleanupDelivery.

Lemma StopCleanup_delivers_once_witness :
  run [EvLoopEnter; EvStopCall; EvStopTest 0] (New pg_empty [])
  = Some w_stopping
  /\ delivered w_stopping = 0%nat
  /\ exists w',
      step w_stopping (EvHandoff 0) = Some w'
      /\ stops w' !! 0%nat = Some (StopReturned true)
      /\ cleanup w' = LoopReturned.
Proof.
  assert (Hrun : run [EvLoopEnter; EvStopCall; EvStopTest 0] (New pg_empty [])
                 = Some w_stopping) by reflexivity.
  destruct (StopCleanup_delivers_once pg_empty [] _ w_stopping Hrun)
    as (_ & _ & Hd & Hgo & _).
  split; [exact Hrun |]. split; [exact Hd |].
  destruct (Hgo 0%nat eq_refl eq_refl) as (w' & Hstep & Hk & Hc & _).
  exists w'. auto.
Defined.

(** The claim of C6 fails as stated: after a first [StopCleanup] has stopped
    the loop, a second call passes the nil test, blocks in its send, and
    never returns. *)
Lemma StopCleanup_second_call_hangs :
  run [EvLoopEnter; EvStopCall; EvStopTest 0; EvHandoff 0;
       EvStopCall; EvStopTest 1] (New pg_empty []) = Some w_hung
  /\ stops w_hung = [StopReturned true; StopSending]
  /\ forall evs w',
      run evs w_hung = Some w' -> stops w' !! 1%nat = Some StopSending.
Proof.
  split; [vm_compute; reflexivity |]. split; [reflexivity |].
  intros evs w' Hrun.
  now destruct (blocked_after_return evs w_hung w' 1%nat eq_refl eq_refl Hrun).
Qed.

(** * Further properties of the code *)

(** ** All: errors and repeated tokens *)

Lemma All_rows_scan_error (pre : list (string * bytes)) (e : error)
  (post : list (error + (string * bytes))) :
  forall acc, All_rows ((inr <$> pre) ++ inl e :: post)%list acc = inl e.
Proof.
  induction pre as [|[k v] pre IH]; intros acc; [reflexivity |]. apply IH.
Qed.

Lemma All_rows_last_wins (l : list (string * bytes)) :
  forall acc : gmap string bytes,
    All_rows (inr <$> l) acc
    = inr (foldr (fun kv m => <[kv.1 := kv.2]> m) acc (reverse l)).
Proof.
  induction l as [|[k v] l IH]; intros acc; [reflexivity |].
  simpl. rewrite IH, reverse_cons, foldr_app. reflexivity.
Qed.

(** X1. [All] returns a nil map together with the error in each of its
    three failure paths, whatever the driver: the query itself fails; the
    scan of some row fails (the error of the first such row, whatever rows
    came before or would come after); the rows end with an error. *)
Theorem All_returns_nil_map_with_error
  (DB : Type) (drv : Driver DB) (p : PostgresStore DB) :
  exists q : string,
    forall d : DB,
      (forall e,
          Query (db p) q [] = (d, inl e) ->
          All p = (with_db p d, (None, Some e)))
      /\ (forall rows pre e post,
            Query (db p) q [] = (d, inr rows) ->
            rows_next rows = ((inr <$> pre) ++ inl e :: post)%list ->
            All p = (with_db p d, (None, Some e)))
      /\ (forall rows oks e,
            Query (db p) q [] = (d, inr rows) ->
            rows_next rows = inr <$> oks ->
            rows_err rows = Some e ->
            All p = (with_db p d, (None, Some e))).
Proof.
  eexists. intros d. split; [| split].
  - intros e Hq. unfold All. now rewrite Hq.
  - intros rows pre e post Hq Hrows. unfold All. rewrite Hq, Hrows.
    now rewrite All_rows_scan_error.
  - intros rows oks e Hq Hrows Herr. unfold All. rewrite Hq, Hrows.
    now rewrite All_rows_last_wins, Herr.
Qed.

Lemma All_returns_nil_map_with_error_witness :
  All (MkStore (MkStub (inl ErrNoRows) (inl (ErrDriver "timeout")) None)
         None defaultOptions)
  = (MkStore (MkStub (inl ErrNoRows) (inl (ErrDriver "timeout")) None)
       None defaultOptions,
     (None, Some (ErrDriver "timeout")))
  /\ (All (MkStore
             (MkStub (inl ErrNoRows)
                (inr (MkRows [inr ("a", payload "1");
                              inl (ErrDriver "bad column");
                              inr ("b", payload "2")] None))
                None)
             None defaultOptions)).2
     = (None, Some (ErrDriver "bad column"))
  /\ (All (MkStore
             (MkStub (inl ErrNoRows)
                (inr (MkRows [inr ("a", payload "1")]
                        (Some (ErrDriver "connection reset"))))
                None)
             None defaultOptions)).2
     = (None, Some (ErrDriver "connection reset")).
Proof.
  split; [| split].
  - destruct (All_returns_nil_map_with_error stub stub_driver
                (MkStore (MkStub (inl ErrNoRows) (inl (ErrDriver "timeout")) None)
                   None defaultOptions)) as [q Hq].
    exact (proj1 (Hq _) (ErrDriver "timeout") eq_refl).
  - destruct (All_returns_nil_map_with_error stub stub_driver
                (MkStore
                   (MkStub (inl ErrNoRows)
                      (inr (MkRows [inr ("a", payload "1");
                                    inl (ErrDriver "bad column");
                                    inr ("b", payload "2")] None))
                      None)
                   None defaultOptions)) as [q Hq].
    exact (f_equal snd
             (proj1 (proj2 (Hq _)) _ [("a", payload "1")]
                (ErrDriver "bad column") [inr ("b", payload "2")]
                eq_refl eq_refl)).
  - destruct (All_returns_nil_map_with_error stub stub_driver
                (MkStore
                   (MkStub (inl ErrNoRows)
                      (inr (MkRows [inr ("a", payload "1")]
                              (Some (ErrDriver "connection reset"))))
                      None)
                   None defaultOptions)) as [q Hq].
    exact (f_equal snd
             (proj2 (proj2 (Hq _)) _ [("a", payload "1")]
                (ErrDriver "connection reset") eq_refl eq_refl eq_refl)).
Defined.

(** X2. When the query and every scan succeed and the rows end without
    error, [All] returns a map and a nil error, and a token that comes in
    several rows is mapped to the payload of the last of them: the map is
    the one built from the rows in reverse, where the first entry of a key
    is the one that counts. *)
Theorem All_last_row_of_a_token_wins
  (DB : Type) (drv : Driver DB) (p : PostgresStore DB) :
  exists q : string,
    forall (d : DB) (rows : Rows) (oks : list (string * bytes)),
      Query (db p) q [] = (d, inr rows) ->
      rows_next rows = inr <$> oks ->
      rows_err rows = None ->
      All p = (with_db p d, (Some (list_to_map (reverse oks)), None)).
Proof.
  eexists. intros d rows oks Hq Hrows Herr. unfold All.
  rewrite Hq, Hrows, All_rows_last_wins, Herr. reflexivity.
Qed.

Lemma All_last_row_of_a_token_wins_witness :
  exists m : gmap string bytes,
    (All (MkStore
            (MkStub (inl ErrNoRows)
               (inr (MkRows [inr ("a", payload "1"); inr ("b", payload "2");
                             inr ("a", payload "3")] None))
               None)
            None defaultOptions)).2 = (Some m, None)
    /\ m !! "a" = Some (payload "3")
    /\ m !! "b" = Some (payload "2").
Proof.
  destruct (All_last_row_of_a_token_wins stub stub_driver
              (MkStore
                 (MkStub (inl ErrNoRows)
                    (inr (MkRows [inr ("a", payload "1"); inr ("b", payload "2");
                                  inr ("a", payload "3")] None))
                    None)
                 None defaultOptions)) as [q Hq].
  eexists. split.
  - exact (f_equal snd
             (Hq _ _ [("a", payload "1"); ("b", payload "2"); ("a", payload "3")]
                eq_refl eq_refl eq_refl)).
  - split; reflexivity.
Defined.

(** ** What the methods leave alone *)

(** X3. Whatever the driver answers, no method touches the options or the
    stop channel of the store: only the database state moves. *)
Theorem methods_keep_options_and_channel
  (DB : Type) (drv : Driver DB) (p : PostgresStore DB)
  (token : string) (b : bytes) (expiry : Z) :
  (opts (Find p token).1 = opts p
   /\ stopCleanup (Find p token).1 = stopCleanup p)
  /\ (opts (Commit p token b expiry).1 = opts p
      /\ stopCleanup (Commit p token b expiry).1 = stopCleanup p)
  /\ (opts (Delete p token).1 = opts p
      /\ stopCleanup (Delete p token).1 = stopCleanup p)
  /\ (opts (All p).1 = opts p /\ stopCleanup (All p).1 = stopCleanup p)
  /\ (opts (deleteExpired p).1 = opts p
      /\ stopCleanup (deleteExpired p).1 = stopCleanup p).
Proof.
  repeat split.
  - unfold Find. destruct (QueryRow _ _ _) as [d [e | [b' [e|]]]]; simpl;
      try (now destruct (error_eqb e ErrNoRows)); reflexivity.
  - unfold Find. destruct (QueryRow _ _ _) as [d [e | [b' [e|]]]]; simpl;
      try (now destruct (error_eqb e ErrNoRows)); reflexivity.
  - unfold Commit. now destruct (Exec _ _ _) as [d [e|]].
  - unfold Commit. now destruct (Exec _ _ _) as [d [e|]].
  - unfold Delete. now destruct (Exec _ _ _) as [d err].
  - unfold Delete. now destruct (Exec _ _ _) as [d err].
  - unfold All. destruct (Query _ _ _) as [d [e | rows]]; [reflexivity |].
    destruct (All_rows _ _); [reflexivity |]. now destruct (rows_err rows).
  - unfold All. destruct (Query _ _ _) as [d [e | rows]]; [reflexivity |].
    destruct (All_rows _ _); [reflexivity |]. now destruct (rows_err rows).
  - unfold deleteExpired. now destruct (Exec _ _ _) as [d err].
  - unfold deleteExpired. now destruct (Exec _ _ _) as [d err].
Qed.

(** ** The five statements, spelled out *)

(** X4. Each method sends the driver one statement, and its text is the
    fixed wording with the configured names in the places of the verbs,
    one name for each verb: no operand is missing and none is left over.
    [All] binds no parameter. *)
Theorem statements_spelled_out
  (DB : Type) (drv : Driver DB) (p : PostgresStore (traced DB))
  (token : string) (b : bytes) (expiry : Z) :
  let t := sessionTableName (opts p) in
  let k := tokenColumnName (opts p) in
  let c := dataColumnName (opts p) in
  let x := expiryColumnName (opts p) in
  statements (Find p token).1
  = (statements p ++
     [MkSent ("SELECT " ++ c ++ " FROM " ++ t ++ " WHERE " ++ k
              ++ " = $1 AND current_timestamp < " ++ x)
        [ArgString token]])%list
  /\ statements (Commit p token b expiry).1
     = (statements p ++
        [MkSent ("INSERT INTO " ++ t ++ " (" ++ k ++ ", " ++ c ++ ", " ++ x
                 ++ ") VALUES ($1, $2, $3) ON CONFLICT (" ++ k
                 ++ ") DO UPDATE SET " ++ c ++ " = EXCLUDED." ++ c ++ ", "
                 ++ x ++ " = EXCLUDED." ++ x)
           [ArgString token; ArgBytes b; ArgTime expiry]])%list
  /\ statements (Delete p token).1
     = (statements p ++
        [MkSent ("DELETE FROM " ++ t ++ " WHERE " ++ k ++ " = $1")
           [ArgString token]])%list
  /\ statements (All p).1
     = (statements p ++
        [MkSent ("SELECT " ++ k ++ ", " ++ c ++ " FROM " ++ t
                 ++ " WHERE current_timestamp < " ++ x) []])%list
  /\ statements (deleteExpired p).1
     = (statements p ++
        [MkSent ("DELETE FROM " ++ t ++ " WHERE " ++ x
                 ++ " < current_timestamp") []])%list.
Proof.
  intros t k c x. unfold t, k, c, x. repeat split.
  - unfold Find. cbn [QueryRow traced_driver].
    destruct (QueryRow _ _ _) as [d [e | [b' [e|]]]]; simpl;
      try destruct (error_eqb e ErrNoRows); simpl;
      now rewrite append_empty_r.
  - unfold Commit. cbn [Exec traced_driver].
    destruct (Exec _ _ _) as [d [e|]]; simpl; now rewrite append_empty_r.
  - unfold Delete. cbn [Exec traced_driver].
    now destruct (Exec _ _ _) as [d err].
  - unfold All. cbn [Query traced_driver].
    destruct (Query _ _ _) as [d [e | rows]]; simpl;
      [now rewrite append_empty_r |].
    destruct (All_rows _ _); simpl; [now rewrite append_empty_r |].
    destruct (rows_err rows); simpl; now rewrite append_empty_r.
  - unfold deleteExpired. cbn [Exec traced_driver].
    now destruct (Exec _ _ _) as [d err].
Qed.

(** ** The sweep *)

Lemma pg_select_active_swept (d : pgdb) (token : string) :
  pg_select_active (pg_delete_expired d) token = pg_select_active d token.
Proof.
  unfold pg_select_active, pg_active, pg_delete_expired. simpl.
  destruct (pg_rows d !! token) as [[data e]|] eqn:Hr; simpl.
  - destruct (filter _ (pg_rows d) !! token) as [[data' e']|] eqn:Hf; simpl.
    + apply map_lookup_filter_Some in Hf as [Hr' _].
      rewrite Hr in Hr'. now injection Hr' as <- <-.
    + apply map_lookup_filter_None in Hf as [Hn | Hn]; [congruence |].
      specialize (Hn _ Hr). simpl in Hn.
      destruct (Z.ltb_spec (pg_now d) e); [lia | reflexivity].
  - now rewrite (proj2 (map_lookup_filter_None _ _ token)) by now left.
Qed.

(** X5. On a working connection [deleteExpired] returns nil and removes
    exactly the rows whose expiry is before the clock: a row is in the
    table afterwards iff it was there and its expiry is at or after the
    clock (a row that expires at this very instant stays, though no read
    shows it). No [Find] answers differently after the sweep than before,
    and a second sweep at the same clock changes nothing. *)
Theorem deleteExpired_removes_exactly_the_expired
  (p : PostgresStore pgdb) (Hp : pg_serves p) :
  let p' := (deleteExpired p).1 in
  (deleteExpired p).2 = None
  /\ (forall token data expiry,
        pg_rows (db p') !! token = Some (data, expiry) <->
        pg_rows (db p) !! token = Some (data, expiry)
        /\ pg_now (db p) <= expiry)
  /\ (forall token, (Find p' token).2 = (Find p token).2)
  /\ deleteExpired p' = (p', None).
Proof.
  intros p'. unfold p'. rewrite (deleteExpired_engine p Hp). simpl.
  assert (Hp' : pg_serves (with_db p (pg_delete_expired (db p))))
    by now apply pg_serves_rows.
  split; [reflexivity |]. split; [| split].
  - intros token data expiry. apply map_lookup_filter_Some.
  - intros token. rewrite (Find_engine _ Hp'), (Find_engine p Hp). simpl.
    now rewrite pg_select_active_swept.
  - rewrite (deleteExpired_engine _ Hp'). f_equal.
    unfold with_db, pg_delete_expired, pg_with_rows. simpl. do 2 f_equal.
    apply map_eq. intros token. apply option_eq. intros [data e].
    rewrite !map_lookup_filter_Some. simpl. tauto.
Qed.

Lemma deleteExpired_removes_exactly_the_expired_witness :
  pg_serves (store w_three)
  /\ pg_rows (db (deleteExpired (store w_three)).1) !! "old" = None
  /\ pg_rows (db (deleteExpired (store w_three)).1) !! "edge"
     = Some ([x65], 1000)
  /\ (Find (deleteExpired (store w_three)).1 "edge").2 = (None, false, None)
  /\ (Find (deleteExpired (store w_three)).1 "new").2
     = (Some [x6e], true, None).
Proof.
  assert (Hp : pg_serves (store w_three)) by (now split).
  destruct (deleteExpired_removes_exactly_the_expired (store w_three) Hp)
    as (_ & Hrows & Hfind & _).
  split; [exact Hp |]. split; [| split; [| split]].
  - destruct (pg_rows (db (deleteExpired (store w_three)).1) !! "old")
      as [[data e]|] eqn:Hold; [| reflexivity].
    apply Hrows in Hold as [Hold Hle]. vm_compute in Hold.
    injection Hold as <- <-. vm_compute in Hle. now elim Hle.
  - apply Hrows. split; [reflexivity | vm_compute; discriminate].
  - rewrite Hfind. reflexivity.
  - rewrite Hfind. reflexivity.
Defined.

(** ** Commit, Find, All and Delete together *)

(** X6. A record committed with an expiry ahead of the clock is found at
    once, by [Find] with the bytes that were committed (the payload itself
    when it is not nil) and by [All] under its token; and [Find] goes on
    finding it exactly as long as the clock is before the expiry, with no
    sweep involved. *)
Theorem Commit_then_Find_returns_payload
  (p : PostgresStore pgdb) (Hp : pg_serves p)
  (token : string) (b : bytes) (expiry : Z)
  (Hfuture : pg_now (db p) < expiry) :
  let p' := (Commit p token b expiry).1 in
  Find p' token = (p', (Some (bind_bytea b), true, None))
  /\ (forall l, b = Some l -> (Find p' token).2 = (b, true, None))
  /\ (exists m : gmap string bytes,
        (All p').2 = (Some m, None)
        /\ m !! token = Some (Some (bind_bytea b)))
  /\ (forall dt : N,
        (Find (later dt p') token).2
        = if pg_now (db p) + Z.of_N dt <? expiry
          then (Some (bind_bytea b), true, None)
          else (None, false, None)).
Proof.
  intros p'.
  assert (Hp' : pg_serves p') by now apply Commit_serves.
  assert (Hrow : pg_rows (db p') !! token = Some (bind_bytea b, expiry)).
  { unfold p'. rewrite (Commit_engine p Hp). simpl. apply lookup_insert_eq. }
  assert (Hnow : pg_now (db p') = pg_now (db p)).
  { unfold p'. now rewrite (Commit_engine p Hp). }
  assert (HF : Find p' token = (p', (Some (bind_bytea b), true, None))).
  { rewrite (Find_engine p' Hp'). unfold pg_select_active, pg_active.
    rewrite Hrow, Hnow. simpl.
    now destruct (Z.ltb_spec (pg_now (db p)) expiry); [| lia]. }
  split; [exact HF |]. split; [| split].
  - intros l ->. now rewrite HF.
  - exists (pg_visible (db p')). rewrite (All_engine p' Hp').
    split; [reflexivity |]. apply pg_visible_lookup.
    exists (bind_bytea b), expiry. rewrite Hnow. auto.
  - intros dt. rewrite (Find_engine _ (later_serves dt p' Hp')). simpl.
    unfold pg_select_active, pg_active. simpl. rewrite Hrow, Hnow. simpl.
    now destruct (pg_now (db p) + Z.of_N dt <? expiry).
Qed.

Lemma Commit_then_Find_returns_payload_witness :
  pg_serves p_default
  /\ pg_now (db p_default) < 4600
  /\ Find (Commit p_default "abc" (payload "payload1") 4600).1 "abc"
     = ((Commit p_default "abc" (payload "payload1") 4600).1,
        (payload "payload1", true, None))
  /\ (Find (later 3600 (Commit p_default "abc" (payload "payload1") 4600).1)
        "abc").2 = (None, false, None).
Proof.
  assert (Hlt : pg_now (db p_default) < 4600) by reflexivity.
  destruct (Commit_then_Find_returns_payload p_default p_default_serves
              "abc" (payload "payload1") 4600 Hlt) as (HF & _ & _ & Hlater).
  split; [exact p_default_serves |]. split; [exact Hlt |].
  split; [exact HF | exact (Hlater 3600%N)].
Defined.

(** X7. [Commit] and [Delete] of one token leave every other token as it
    was: [Find] of another token answers the same before and after. *)
Theorem writes_leave_other_tokens_alone
  (p : PostgresStore pgdb) (Hp : pg_serves p)
  (token other : string) (b : bytes) (expiry : Z)
  (Hother : other <> token) :
  (Find (Commit p token b expiry).1 other).2 = (Find p other).2
  /\ (Find (Delete p token).1 other).2 = (Find p other).2.
Proof.
  split.
  - rewrite (Find_engine _ (Commit_serves p token b expiry Hp)).
    rewrite (Commit_engine p Hp), (Find_engine p Hp). simpl.
    unfold pg_select_active. simpl.
    now rewrite lookup_insert_ne by congruence.
  - rewrite (Delete_engine p Hp), (Find_engine p Hp).
    rewrite Find_engine by now apply pg_serves_rows.
    simpl. unfold pg_select_active. simpl.
    now rewrite lookup_delete_ne by congruence.
Qed.

Lemma writes_leave_other_tokens_alone_witness :
  pg_serves (store w_three)
  /\ (Find (Commit (store w_three) "abc" (payload "payload1") 4600).1 "new").2
     = (Some [x6e], true, None)
  /\ (Find (Delete (store w_three) "old").1 "new").2
     = (Some [x6e], true, None).
Proof.
  assert (Hp : pg_serves (store w_three)) by (now split).
  assert (Hne1 : "new" <> "abc") by discriminate.
  assert (Hne2 : "new" <> "old") by discriminate.
  split; [exact Hp |]. split.
  - rewrite (proj1 (writes_leave_other_tokens_alone (store w_three) Hp
                      "abc" "new" (payload "payload1") 4600 Hne1)).
    reflexivity.
  - rewrite (proj2 (writes_leave_other_tokens_alone (store w_three) Hp
                      "old" "new" None 0 Hne2)).
    reflexivity.
Defined.

(** X8. [Find] and [All] agree: the map of [All] holds a token with a
    payload exactly when [Find] of the token returns that payload with
    [exists] true, and lacks a token exactly when [Find] answers
    [(nil, false, nil)]. *)
Theorem Find_agrees_with_All
  (p : PostgresStore pgdb) (Hp : pg_serves p) :
  exists m : gmap string bytes,
    (All p).2 = (Some m, None)
    /\ (forall token b,
          m !! token = Some b <-> (Find p token).2 = (b, true, None))
    /\ (forall token,
          m !! token = None <-> (Find p token).2 = (None, false, None)).
Proof.
  exists (pg_visible (db p)). rewrite (All_engine p Hp).
  split; [reflexivity |].
  assert (Hiff : forall token b,
             pg_visible (db p) !! token = Some b
             <-> (Find p token).2 = (b, true, None)).
  { intros token b. rewrite pg_visible_lookup. symmetry.
    now apply Find_found_iff. }
  split; [exact Hiff |]. intros token.
  destruct (pg_visible (db p) !! token) as [b|] eqn:Hv.
  - apply Hiff in Hv. rewrite Hv. split; discriminate.
  - split; [intros _ | reflexivity].
    rewrite (Find_engine p Hp). simpl.
    destruct (pg_select_active (db p) token) as [e | [b c]] eqn:Hs;
      [reflexivity |].
    assert (HF : (Find p token).2 = (b, true, None)).
    { rewrite (Find_engine p Hp). simpl. now rewrite Hs. }
    apply Hiff in HF. congruence.
Qed.

Lemma Find_agrees_with_All_witness :
  pg_serves (store w_three)
  /\ exists m : gmap string bytes,
      (All (store w_three)).2 = (Some m, None)
      /\ m !! "new" = Some (Some [x6e])
      /\ m !! "edge" = None.
Proof.
  assert (Hp : pg_serves (store w_three)) by (now split).
  destruct (Find_agrees_with_All (store w_three) Hp) as (m & HAll & Hin & Hout).
  split; [exact Hp |]. exists m. split; [exact HAll |]. split.
  - apply Hin. reflexivity.
  - apply Hout. reflexivity.
Defined.

(** X9. [Delete] undoes [Commit]: committing a token that had no row and
    deleting it again leaves the store exactly as it was. Deleting twice is
    deleting once, and a commit does not care whether the token was deleted
    just before. *)
Theorem Delete_undoes_Commit
  (p : PostgresStore pgdb) (Hp : pg_serves p)
  (token : string) (b : bytes) (expiry : Z) :
  (pg_rows (db p) !! token = None ->
   Delete (Commit p token b expiry).1 token = (p, None))
  /\ Delete (Delete p token).1 token = ((Delete p token).1, None)
  /\ Commit (Delete p token).1 token b expiry = Commit p token b expiry.
Proof.
  assert (Hpc : pg_serves (Commit p token b expiry).1)
    by now apply Commit_serves.
  assert (Hpd : pg_serves (with_db p (pg_delete_token (db p) token)))
    by now apply pg_serves_rows.
  split; [| split].
  - intros Hfresh. rewrite (Delete_engine _ Hpc), (Commit_engine p Hp).
    unfold with_db, pg_delete_token, pg_upsert, pg_with_rows. simpl.
    rewrite (delete_insert_id _ _ _ Hfresh). now destruct p as [[] ? ?].
  - rewrite (Delete_engine p Hp). simpl. rewrite (Delete_engine _ Hpd).
    unfold with_db, pg_delete_token, pg_with_rows. simpl.
    now rewrite delete_delete_eq.
  - rewrite (Delete_engine p Hp). simpl.
    rewrite (Commit_engine _ Hpd), (Commit_engine p Hp).
    unfold with_db, pg_delete_token, pg_upsert, pg_with_rows. simpl.
    now rewrite insert_delete_eq.
Qed.

Lemma Delete_undoes_Commit_witness :
  pg_serves p_default
  /\ Delete (Commit p_default "abc" (payload "payload1") 4600).1 "abc"
     = (p_default, None).
Proof.
  split; [exact p_default_serves |].
  exact (proj1 (Delete_undoes_Commit p_default p_default_serves "abc"
                  (payload "payload1") 4600) eq_refl).
Defined.

(** ** The cleanup goroutine over its life *)

Lemma lookup_snoc {A} (l : list A) (x : A) :
  (l ++ [x])%list !! length l = Some x.
Proof. induction l as [|a l IH]; [reflexivity | exact IH]. Qed.

Lemma insert_snoc {A} (l : list A) (x y : A) :
  <[length l := y]> (l ++ [x])%list = (l ++ [y])%list.
Proof.
  induction l as [|a l IH]; [reflexivity |]. simpl. now rewrite IH.
Qed.

(** X10. A tick on a working connection sweeps the table and logs
    nothing: the loop is back in its select, and the table holds the rows
    it held whose expiry is at or after the clock. A row whose expiry the
    clock has passed is gone from the table itself. *)
Theorem tick_removes_expired_rows
  (w : World pgdb) (interval : Z)
  (Hloop : cleanup w = LoopSelect)
  (Hticker : ticker w = Some (MkTicker interval true))
  (Hp : pg_serves (store w)) :
  exists w',
    step w EvTick = Some w'
    /\ logged w' = logged w
    /\ cleanup w' = LoopSelect
    /\ ticker w' = ticker w
    /\ stops w' = stops w
    /\ pg_serves (store w')
    /\ (forall token data expiry,
          pg_rows (db (store w')) !! token = Some (data, expiry) <->
          pg_rows (db (store w)) !! token = Some (data, expiry)
          /\ pg_now (db (store w)) <= expiry)
    /\ (forall token data expiry,
          pg_rows (db (store w)) !! token = Some (data, expiry) ->
          expiry < pg_now (db (store w)) ->
          pg_rows (db (store w')) !! token = None).
Proof.
  exists (startCleanup_select w CaseTicker).
  split; [simpl; now rewrite Hloop, Hticker |].
  unfold startCleanup_select. rewrite (deleteExpired_engine _ Hp). simpl.
  repeat (split; [reflexivity |]).
  split; [now apply pg_serves_rows |]. split.
  - intros token data expiry. apply map_lookup_filter_Some.
  - intros token data expiry Hr Hlt. apply map_lookup_filter_None. right.
    intros r Hr'. rewrite Hr in Hr'. injection Hr' as <-. simpl. lia.
Qed.

Lemma tick_removes_expired_rows_witness :
  exists w',
    step w_three EvTick = Some w'
    /\ logged w' = []
    /\ pg_rows (db (store w')) !! "old" = None.
Proof.
  assert (Hp : pg_serves (store w_three)) by (now split).
  destruct (tick_removes_expired_rows w_three (5 * Minute) eq_refl eq_refl Hp)
    as (w' & Hstep & Hlog & _ & _ & _ & _ & _ & Hgone).
  exists w'. split; [exact Hstep |]. split; [exact Hlog |].
  apply (Hgone "old" [x6f] 999); reflexivity.
Defined.

Section LoopLife.
Context {DB : Type} `{Driver DB}.

(** X11. A [StopCleanup] that runs before the spawned goroutine has
    created the channel is lost: it finds the channel nil and returns
    without sending, and the goroutine then enters its loop, with a ticker
    of the configured interval, as if nothing had been asked. *)
Theorem StopCleanup_before_loop_entry_is_lost
  (d : DB) (options : list StoreOption)
  (Hpos : 0 < cleanupInterval (opts (store (New d options)))) :
  exists w,
    run [EvStopCall; EvStopTest 0; EvLoopEnter] (New d options) = Some w
    /\ stops w = [StopReturned false]
    /\ delivered w = 0%nat
    /\ cleanup w = LoopSelect
    /\ stopCleanup (store w) = Some UnbufferedChan
    /\ ticker w
       = Some (MkTicker (cleanupInterval (opts (store (New d options)))) true)
    /\ exists w', step w EvTick = Some w' /\ cleanup w' = LoopSelect.
Proof.
  revert Hpos. unfold New. cbn [opts]. set (o := foldl _ _ _).
  destruct (Z.ltb_spec 0 (cleanupInterval o)) as [Hlt | Hge];
    cbn [store opts]; intros Hpos; [| lia].
  eexists. split.
  { simpl. unfold startCleanup, NewTicker. simpl.
    destruct (Z.ltb_spec 0 (cleanupInterval o)); [reflexivity | lia]. }
  simpl. repeat (split; [reflexivity |]).
  eexists. split; [reflexivity |].
  unfold startCleanup_select. simpl.
  now destruct (deleteExpired _) as [p [e|]].
Qed.

(** X12. The loop does not come back: once it has returned, no tick is
    taken and the goroutine cannot be entered again, and whatever calls
    follow, the store, the log and the stopped ticker stay as they are. *)
Theorem returned_loop_never_runs_again
  (w : World DB) (Hreturned : cleanup w = LoopReturned) :
  step w EvTick = None
  /\ step w EvLoopEnter = None
  /\ forall evs w',
      run evs w = Some w' ->
      cleanup w' = LoopReturned
      /\ store w' = store w
      /\ logged w' = logged w
      /\ ticker w' = ticker w.
Proof.
  split; [simpl; now rewrite Hreturned |].
  split; [simpl; now rewrite Hreturned |].
  intros evs. revert w Hreturned.
  induction evs as [|ev evs IH]; intros w Hc w' Hrun; simpl in Hrun.
  - injection Hrun as <-. auto.
  - destruct (step w ev) as [w1|] eqn:Hstep; [| discriminate].
    assert (cleanup w1 = LoopReturned /\ store w1 = store w
            /\ logged w1 = logged w /\ ticker w1 = ticker w)
      as (Hc1 & Hs1 & Hl1 & Ht1).
    { destruct ev as [| | |k|k]; simpl in Hstep; rewrite ?Hc in Hstep;
        try discriminate.
      - injection Hstep as <-. auto.
      - destruct (stops w !! k) as [[| |]|]; try discriminate.
        injection Hstep as <-. auto. }
    destruct (IH w1 Hc1 w' Hrun) as (? & ? & ? & ?).
    repeat split; congruence.
Qed.

(** X13. While the loop is in its select there is a way to stop it: in
    any world [New] can lead to with the loop in its select, the schedule
    in which a fresh [StopCleanup] call is made, runs its nil test and has
    its send received at once, with nothing else in between, is possible,
    and at its end that call has returned after sending, the loop is over
    and its ticker stopped, and the store and the log are as they were.
    (Other schedules are possible too: the loop may receive from another
    call that is already sending, and ticks may come first.) *)
Theorem running_loop_can_be_stopped
  (d : DB) (options : list StoreOption) (evs : list event) (w : World DB)
  (Hrun : run evs (New d options) = Some w)
  (Hloop : cleanup w = LoopSelect) :
  exists w',
    run [EvStopCall; EvStopTest (length (stops w));
         EvHandoff (length (stops w))] w = Some w'
    /\ cleanup w' = LoopReturned
    /\ stops w' = (stops w ++ [StopReturned true])%list
    /\ (exists interval, ticker w' = Some (MkTicker interval false))
    /\ store w' = store w
    /\ logged w' = logged w.
Proof.
  pose proof (run_inv evs _ w (New_inv d options) Hrun) as Hinv.
  unfold lifecycle_inv in Hinv. rewrite Hloop in Hinv.
  destruct Hinv as (Hchan & [i Ht] & _).
  eexists. split.
  { cbn [run step with_stops stops store cleanup ticker logged].
    rewrite lookup_snoc. cbn [with_stops stops store cleanup ticker logged].
    unfold StopCleanup. rewrite Hchan, insert_snoc, Hloop, lookup_snoc.
    reflexivity. }
  cbn [startCleanup_select with_stops stops store cleanup ticker logged].
  rewrite insert_snoc, Ht. simpl. eauto 10.
Qed.
End LoopLife.

Lemma StopCleanup_before_loop_entry_is_lost_witness :
  exists w,
    run [EvStopCall; EvStopTest 0; EvLoopEnter] (New pg_empty []) = Some w
    /\ stops w = [StopReturned false]
    /\ cleanup w = LoopSelect.
Proof.
  assert (Hpos : 0 < cleanupInterval (opts (store (New pg_empty []))))
    by reflexivity.
  destruct (StopCleanup_before_loop_entry_is_lost pg_empty [] Hpos)
    as (w & Hrun & Hstops & _ & Hloop & _).
  exists w. auto.
Defined.

Lemma returned_loop_never_runs_again_witness :
  step w_hung EvTick = None
  /\ forall evs w',
      run evs w_hung = Some w' -> store w' = store w_hung.
Proof.
  destruct (returned_loop_never_runs_again w_hung eq_refl)
    as (Htick & _ & Hafter).
  split; [exact Htick |]. intros evs w' Hrun.
  now destruct (Hafter evs w' Hrun) as (_ & Hs & _).
Defined.

Lemma running_loop_can_be_stopped_witness :
  exists w',
    run [EvStopCall; EvStopTest 0; EvHandoff 0]
      (startCleanup (New pg_empty []) (5 * Minute)) = Some w'
    /\ cleanup w' = LoopReturned
    /\ stops w' = [StopReturned true].
Proof.
  assert (Hrun : run [EvLoopEnter] (New pg_empty [])
                 = Some (startCleanup (New pg_empty []) (5 * Minute)))
    by reflexivity.
  destruct (running_loop_can_be_stopped pg_empty [] [EvLoopEnter] _ Hrun eq_refl)
    as (w' & Hstop & Hloop & Hstops & _).
  exists w'. split; [exact Hstop |]. split; [exact Hloop | exact Hstops].
Defined.

(** ** Options *)

Section Options.
Context {DB : Type} `{Driver DB}.

(** X16. [New] applies its options in the order given, each to what the
    ones before left, starting from a copy of the defaults: the options of
    the new store are those of a store made with the first options, with
    the remaining ones applied on top. So an interval option given last
    decides the interval, and with it whether the goroutine is spawned,
    whatever the options before it asked for; and the database handle and
    the nil channel do not depend on the options. *)
Theorem New_applies_options_in_order
  (d : DB) (first rest : list StoreOption) (interval : Z) :
  opts (store (New d (first ++ rest)%list))
  = foldl (fun o (opt : StoreOption) => opt o) (opts (store (New d first))) rest
  /\ cleanupInterval
       (opts (store (New d (first ++ [WithCleanupInterval interval])%list)))
     = interval
  /\ cleanup (New d (first ++ [WithCleanupInterval interval])%list)
     = (if 0 <? interval then LoopSpawned interval else LoopNotStarted)
  /\ db (store (New d first)) = d
  /\ stopCleanup (store (New d first)) = None
  /\ opts (store (NewWithCleanupInterval d interval))
     = WithCleanupInterval interval defaultOptions.
Proof.
  assert (Hopts : forall options,
             opts (store (New d options))
             = foldl (fun o (opt : StoreOption) => opt o) defaultOptions options).
  { intros options. unfold New. cbn [opts]. now destruct (0 <? _). }
  assert (Hlast : cleanupInterval
                    (opts (store (New d (first ++ [WithCleanupInterval interval])%list)))
                  = interval).
  { rewrite Hopts, foldl_app. reflexivity. }
  split; [now rewrite !Hopts, foldl_app |]. split; [exact Hlast |].
  split; [rewrite New_cleanup, Hlast; reflexivity |].
  split; [unfold New; cbn [opts]; now destruct (0 <? _) |].
  split; [unfold New; cbn [opts]; now destruct (0 <? _) |].
  apply Hopts.
Qed.
End Options.
